(** * Flipper desktop: framework-events inspector, power-search enum term,
      connectivity logs and the Sandy application shell

    A shallow embedding of the data-handling parts of four React
    components.  JavaScript values are modelled as follows:

    - a JS string is a [string]; a character stands for one code unit;
    - a JS Number is an IEEE 754 binary64 datum, a [spec_float] of the
      standard library with precision 53 and maximal exponent 1024;
      [<], [/] and [*] are its operations, and [Number::toString] and
      [Number.prototype.toFixed] follow ECMA-262;
    - a JS [Set] is a [gset]; [size], [has], [add] and [delete] are the
      only operations the components use, none of them observes insertion
      order;
    - an optional field ([thread?: string]) is an [option];
    - a JS array is a [list]; [Array.prototype.filter] is [filter] and
      [Array.prototype.map] with an index is [imap];
    - a JS object used as a record of named entries is a [gmap] from
      property names, or, where the enumeration order is observed
      ([Object.entries]), the list of its own properties in that order. *)

From Stdlib Require Import ZArith String Ascii Lia SpecFloat.
From stdpp Require Import base list gmap strings.

Local Open Scope string_scope.
Local Open Scope Z_scope.

(** ** JavaScript strings and numbers *)

Module Js.

(** *** Strings *)

(** [String.prototype.lastIndexOf(searchString)]: the greatest position
    at which [searchString] starts, [-1] when there is none.  [from] is
    the position of the first character of [s] in the whole string. *)
Fixpoint lastIndexOf_from (from : Z) (s searchString : string) : Z :=
  match s with
  | EmptyString => if String.prefix searchString s then from else -1
  | String _ rest =>
      let later := lastIndexOf_from (from + 1) rest searchString in
      if 0 <=? later then later
      else if String.prefix searchString s then from else -1
  end.

Definition lastIndexOf (s searchString : string) : Z :=
  lastIndexOf_from 0 s searchString.

(** [String.prototype.slice(start)]: a negative [start] counts from the
    end, and the start position is clamped to the string. *)
Definition slice (s : string) (start : Z) : string :=
  let len := Z.of_nat (String.length s) in
  let from := if start <? 0 then Z.max (len + start) 0 else Z.min start len in
  substring (Z.to_nat from) (Z.to_nat (len - from)) s.

Fixpoint repeat (c : ascii) (n : nat) : string :=
  match n with
  | O => EmptyString
  | S n' => String c (repeat c n')
  end.

(** [String.prototype.padStart(targetLength, c)] with a one-character
    filler. *)
Definition padStart (targetLength : nat) (c : ascii) (s : string) : string :=
  repeat c (targetLength - String.length s) ++ s.

(** *** Decimal digits of a non-negative integer *)

Definition digit (d : Z) : ascii := ascii_of_nat (48 + Z.to_nat d).

Fixpoint decimal_fuel (fuel : nat) (n : Z) : string :=
  match fuel with
  | O => EmptyString
  | S fuel' =>
      (if n <? 10 then EmptyString else decimal_fuel fuel' (n / 10))
      ++ String (digit (n mod 10)) EmptyString
  end.

(** The decimal representation of [n >= 0], most significant digit
    first, ["0"] for zero.  A number below [2^f] has at most [f]
    digits. *)
Definition decimal (n : Z) : string :=
  decimal_fuel (S (Z.to_nat (Z.log2 n))) n.

(** *** Numbers: IEEE 754 binary64 *)

Definition prec : Z := 53.
Definition emax : Z := 1024.

Definition number := spec_float.

(** A numeric literal with an integer value. *)
Definition of_Z (n : Z) : number := binary_normalize prec emax n 0 false.

Definition lt (x y : number) : bool := SFltb x y.
Definition div (x y : number) : number := SFdiv prec emax x y.
Definition mul (x y : number) : number := SFmul prec emax x y.

(** Every Number is a valid binary64 datum. *)
Definition is_number (x : number) : Prop := valid_binary prec emax x = true.

(** The integer a Number denotes, when it is finite and integral. *)
Definition Z_of_number (x : number) : option Z :=
  match x with
  | S754_zero _ => Some 0
  | S754_finite s m e =>
      if 0 <=? e then Some (cond_Zopp s (Zpos m * 2 ^ e))
      else if Zpos m mod 2 ^ (- e) =? 0
           then Some (cond_Zopp s (Zpos m / 2 ^ (- e)))
      else None
  | _ => None
  end.

(** Comparison of [a * 2^ea * 10^da] with [b * 2^eb * 10^db], for
    non-negative [a] and [b], by cross-multiplication. *)
Definition scaled (a e d : Z) (e' d' : Z) : Z :=
  a * 2 ^ Z.max (e - e') 0 * 10 ^ Z.max (d - d') 0.

Definition compare_scaled (a ea da b eb db : Z) : comparison :=
  scaled a ea da eb db ?= scaled b eb db ea da.

(** [floor (a * 2^e / 10^p)] for [a >= 0]. *)
Definition floor_scaled (a e p : Z) : Z :=
  scaled a e 0 0 p / scaled 1 0 p e 0.

(** **** Number::toString, radix 10 *)

(** The least [n] from [start] on with [m * 2^e < 10^n]. *)
Fixpoint decimal_exponent_from (fuel : nat) (m e : Z) (n : Z) : Z :=
  match fuel with
  | O => n
  | S fuel' =>
      match compare_scaled m e 0 1 0 n with
      | Lt => n
      | _ => decimal_exponent_from fuel' m e (n + 1)
      end
  end.

Definition decimal_exponent (m : positive) (e : Z) : Z :=
  let b := Zpos (digits2_pos m) + e in
  decimal_exponent_from 4 (Zpos m) e ((b - 1) * 30103 / 100000 - 1).

(** The reals that round to the binary64 value [m * 2^e] lie between
    [lo * 2^(e-2)] and [hi * 2^(e-2)]; the bounds themselves round to it
    when [m] is even (ties to even). *)
Definition rounds_to (m : positive) (e : Z) (s p : Z) : bool :=
  let boundary := (Zpos m =? 2 ^ (prec - 1)) && (3 - emax - prec <? e) in
  let lo := 4 * Zpos m - (if boundary then 1 else 2) in
  let hi := 4 * Zpos m + 2 in
  let inclusive := Z.even (Zpos m) in
  match compare_scaled lo (e - 2) 0 s 0 p, compare_scaled s 0 p hi (e - 2) 0 with
  | Lt, Lt => true
  | Lt, Eq | Eq, Lt | Eq, Eq => inclusive
  | _, _ => false
  end.

(** The shortest digit string: the least [k] for which some [k]-digit
    [s] has [s * 10^(n-k)] rounding to the value, and among those the
    [s] closest to it.  Returns [(s, n, k)]. *)
Fixpoint shortest_from (fuel : nat) (m : positive) (e nv : Z) (k : Z)
    : Z * Z * Z :=
  let p := nv - k in
  let below := floor_scaled (Zpos m) e p in
  let above := below + 1 in
  let ok_below := rounds_to m e below p in
  let ok_above := rounds_to m e above p in
  let pick_above :=
    if above =? 10 ^ k then (10 ^ (k - 1), nv + 1, k) else (above, nv, k) in
  match fuel with
  | O => (below, nv, k)
  | S fuel' =>
      match ok_below, ok_above with
      | true, true =>
          match compare_scaled (2 * Zpos m) e 0 (2 * below + 1) 0 p with
          | Lt => (below, nv, k)
          | Gt => pick_above
          | Eq => if Z.even below then (below, nv, k) else pick_above
          end
      | true, false => (below, nv, k)
      | false, true => pick_above
      | false, false => shortest_from fuel' m e nv (k + 1)
      end
  end.

Definition zeros (n : Z) : string := repeat "0"%char (Z.to_nat n).

Definition positive_toString (m : positive) (e : Z) : string :=
  let '(s, n, k) := shortest_from 17 m e (decimal_exponent m e) 1 in
  let digits := decimal s in
  if (-5 <=? n) && (n <=? 21) then
    if k <=? n then digits ++ zeros (n - k)
    else if 0 <? n then
      substring 0 (Z.to_nat n) digits ++ "."
      ++ substring (Z.to_nat n) (Z.to_nat (k - n)) digits
    else "0." ++ zeros (- n) ++ digits
  else
    let exponent := (if n - 1 <? 0 then "-" else "+") ++ decimal (Z.abs (n - 1)) in
    if k =? 1 then digits ++ "e" ++ exponent
    else substring 0 1 digits ++ "."
         ++ substring 1 (Z.to_nat (k - 1)) digits ++ "e" ++ exponent.

Definition toString (x : number) : string :=
  match x with
  | S754_nan => "NaN"
  | S754_zero _ => "0"
  | S754_infinity s => if s then "-Infinity" else "Infinity"
  | S754_finite s m e => (if s then "-" else "") ++ positive_toString m e
  end.

(** **** Number.prototype.toFixed *)

(** The integer [n] for which [n / 10^f] is closest to [m * 2^e], the
    larger one when there are two. *)
Definition round_half_up_scaled (m : positive) (e : Z) (f : nat) : Z :=
  let x := Zpos m * 10 ^ Z.of_nat f in
  if 0 <=? e then x * 2 ^ e
  else (2 * x + 2 ^ (- e)) / 2 ^ (1 - e).

(** The last step for a value below [10^21]: insert the decimal point
    before the last [f] digits of [m], after padding [m] with zeros up
    to [f + 1] digits. *)
Definition insert_point (f : nat) (m : string) : string :=
  if decide (f = 0%nat) then m
  else
    let m := if decide (String.length m <= f)%nat
             then repeat "0"%char (f + 1 - String.length m) ++ m else m in
    let k := String.length m in
    substring 0 (k - f) m ++ "." ++ substring (k - f) f m.

Definition toFixed (x : number) (fractionDigits : nat) : string :=
  match x with
  | S754_finite s m e =>
      (if s then "-" else "") ++
      match compare_scaled (Zpos m) e 0 1 0 21 with
      | Lt => insert_point fractionDigits
                (decimal (round_half_up_scaled m e fractionDigits))
      | _ => positive_toString m e
      end
  | S754_zero _ => insert_point fractionDigits "0"
  | _ => toString x
  end.


(** **** parseInt(string, 10)

    Leading white space is skipped, one sign is read, and the longest
    run of decimal digits that follows is the value; with no digit the
    result is NaN.  Characters are the code units below 256, so the
    white space is TAB, LF, VT, FF, CR, SP and NBSP. *)
Definition isWhiteSpace (c : ascii) : bool :=
  let n := Z.of_nat (nat_of_ascii c) in
  ((9 <=? n) && (n <=? 13)) || (n =? 32) || (n =? 160).

Fixpoint trimStart (s : string) : string :=
  match s with
  | EmptyString => EmptyString
  | String c rest => if isWhiteSpace c then trimStart rest else s
  end.

Definition digit_value (c : ascii) : option Z :=
  let n := Z.of_nat (nat_of_ascii c) in
  if (48 <=? n) && (n <=? 57) then Some (n - 48) else None.

Fixpoint leading_digits (s : string) : list Z :=
  match s with
  | EmptyString => []
  | String c rest =>
      match digit_value c with
      | Some d => d :: leading_digits rest
      | None => []
      end
  end.

Definition digits_value (ds : list Z) : Z :=
  fold_left (λ acc d, 10 * acc + d) ds 0.

Definition parseInt (string : string) : number :=
  let trimmed := trimStart string in
  let '(sign, digits) :=
    match trimmed with
    | String "-"%char rest => (true, rest)
    | String "+"%char rest => (false, rest)
    | _ => (false, trimmed)
    end in
  match leading_digits digits with
  | [] => S754_nan
  | ds =>
      let mathInt := digits_value ds in
      if mathInt =? 0 then S754_zero sign
      else binary_normalize prec emax (cond_Zopp sign mathInt) 0 false
  end.

(** **** String.prototype.split(separator), a string separator

    The string is cut at every occurrence of the separator found from
    left to right, the search resuming after each one.  [piece] is the
    part read since the last cut and [skip] the number of characters of
    a separator still to pass over. *)
Fixpoint split_from (separator s piece : string) (skip : nat) : list string :=
  match s with
  | EmptyString => [piece]
  | String c rest =>
      match skip with
      | S skip' => split_from separator rest piece skip'
      | O =>
          if String.prefix separator s
          then piece :: split_from separator rest EmptyString
                          (String.length separator - 1)
          else split_from separator rest (piece ++ String c EmptyString) O
      end
  end.

Fixpoint code_units (s : string) : list string :=
  match s with
  | EmptyString => []
  | String c rest => String c EmptyString :: code_units rest
  end.

Definition split (s separator : string) : list string :=
  match separator with
  | EmptyString => code_units s
  | String _ _ => split_from separator s EmptyString O
  end.

End Js.

(** ** ClientTypes *)

Module ClientTypes.

(** The fields of [FrameworkEvent] that the inspector reads for
    filtering and for the timeline.  [timestamp] is a number of
    milliseconds. *)
Record FrameworkEvent := {
  type : string;
  thread : option string;
  timestamp : Js.number;
}.

#[global] Instance spec_float_eq_dec : EqDecision spec_float.
Proof. solve_decision. Defined.

#[global] Instance FrameworkEvent_eq_dec : EqDecision FrameworkEvent.
Proof. solve_decision. Defined.


(** [FrameworkEventMetadata] and the fields of [ClientNode] that the
    inspector reads; [Id] is a number. *)
Record FrameworkEventMetadata := {
  metadata_type : string;
  documentation : string;
}.

Record ClientNode := {
  id : Js.number;
  tags : list string;
}.

End ClientTypes.

(** ** The [theme] object of flipper-plugin

    Only its colours and its monospace style are used here; their values
    are not part of these components, so [Theme] is a record the
    definitions below take as an argument. *)

Definition CSSProperties := gmap string string.

Record Theme := {
  warningColor : string;
  primaryColor : string;
  errorColor : string;
  monospace : CSSProperties;
}.

(** ** lodash *)

Module Lodash.

(** [uniqBy(array, iteratee)], the loop of [baseUniq]: a value is kept
    when its computed key is not among the keys [seen] so far. *)
Fixpoint baseUniq {A K} `{EqDecision K} (iteratee : A → K)
    (seen : list K) (array : list A) : list A :=
  match array with
  | [] => []
  | value :: rest =>
      let computed := iteratee value in
      if decide (computed ∈ seen) then baseUniq iteratee seen rest
      else value :: baseUniq iteratee (seen ++ [computed]) rest
  end.

Definition uniqBy {A K} `{EqDecision K} (array : list A)
    (iteratee : A → K) : list A :=
  baseUniq iteratee [] array.


(** [last(array)]: [array[length - 1]], [undefined] for an empty
    array. *)
Definition last {A} (array : list A) : option A :=
  let length := length array in
  if decide (length = 0%nat) then None else array !! (length - 1)%nat.

End Lodash.

(** ** The host: time zone and [Intl] date formatting

    [Intl.DateTimeFormat('en-US', options).format] and the local time
    zone adjustment belong to the JavaScript host.  [formatTime t] is the
    formatted hour, minute and second of the time value [t];
    [localTZA t] is the offset of local time at [t], in milliseconds. *)

Record Host := {
  formatTime : Z → string;
  localTZA : Z → Z;
}.

(** ** FrameworkEventsInspector.tsx *)

Module FrameworkEventsInspector.
Import ClientTypes.

(** *** The derived lists of threads and event types *)
Definition allThreads (events : list FrameworkEvent) : list (option string) :=
  thread <$> Lodash.uniqBy events thread.

Definition allEventTypes (events : list FrameworkEvent) : list string :=
  type <$> Lodash.uniqBy events type.

(** *** immer's [produce] on a [Set] draft

    The recipe mutates the draft in place; with sets as values this is
    the function from the current set to the next one. *)
Definition produce {A} (cur : A) (recipe : A → A) : A := recipe cur.

(** The [onSelect] callback of a dropdown item, as passed to
    [setFilteredThreads] / [setFilteredEventTypes]: the state update
    [cur => produce(cur, draft => ...)]. *)
Definition onSelect `{Countable A} (value : A) (selected : bool)
    (cur : gset A) : gset A :=
  produce cur (λ draft,
    if selected then {[ value ]} ∪ draft else draft ∖ {[ value ]}).

(** *** filteredEvents *)
Definition filteredEvents (events : list FrameworkEvent)
    (filteredEventTypes : gset string)
    (filteredThreads : gset (option string)) : list FrameworkEvent :=
  filter
    (λ event, size filteredThreads = 0%nat ∨ thread event ∈ filteredThreads)
    (filter
       (λ event,
          size filteredEventTypes = 0%nat ∨ type event ∈ filteredEventTypes)
       events).

(** *** formatTimestamp *)

(** A [Date] holds a time value, or NaN ([None]) when it is invalid. *)
Definition Date := option Z.

(** ToIntegerOrInfinity of a finite number: truncation towards zero. *)
Definition truncate (x : Js.number) : option Z :=
  match x with
  | S754_zero _ => Some 0
  | S754_finite s m e =>
      Some (cond_Zopp s
              (if 0 <=? e then Zpos m * 2 ^ e else Zpos m / 2 ^ (- e)))
  | _ => None
  end.

(** [new Date(value)]: TimeClip. *)
Definition newDate (value : Js.number) : Date :=
  match truncate value with
  | Some tv => if Z.abs tv <=? 8640000000000000 then Some tv else None
  | None => None
  end.

Inductive Completion (A : Type) :=
| Normal (a : A)
| Throw (error : string).
Arguments Normal {A} a.
Arguments Throw {A} error.

(** [Intl.DateTimeFormat.prototype.format] throws a RangeError on an
    invalid date. *)
Definition DateTimeFormat_format (host : Host) (date : Date)
    : Completion string :=
  match date with
  | Some tv => Normal (formatTime host tv)
  | None => Throw "RangeError"
  end.

(** [Date.prototype.getMilliseconds]: the millisecond within the second
    of the local time, NaN for an invalid date. *)
Definition getMilliseconds (host : Host) (date : Date) : Js.number :=
  match date with
  | Some tv => Js.of_Z ((tv + localTZA host tv) mod 1000)
  | None => S754_nan
  end.

Definition formatTimestamp (host : Host) (timestamp : Js.number)
    : Completion string :=
  let date := newDate timestamp in
  match DateTimeFormat_format host date with
  | Throw error => Throw error
  | Normal formattedDate =>
      let milliseconds := getMilliseconds host date in
      Normal (formattedDate ++ "."
              ++ Js.padStart 3 "0" (Js.toString milliseconds))
  end.

(** *** formatDuration *)
Definition formatDuration (nanoseconds : Js.number) : string :=
  if Js.lt nanoseconds (Js.of_Z 1000) then
    Js.toString nanoseconds ++ " nanoseconds"
  else if Js.lt nanoseconds (Js.of_Z 1000000) then
    Js.toFixed (Js.div nanoseconds (Js.of_Z 1000)) 2 ++ " microseconds"
  else if Js.lt nanoseconds (Js.of_Z 1000000000) then
    Js.toFixed (Js.div nanoseconds (Js.of_Z 1000000)) 2 ++ " milliseconds"
  else if Js.lt nanoseconds (Js.of_Z 1000000000000) then
    Js.toFixed (Js.div nanoseconds (Js.of_Z 1000000000)) 2 ++ " seconds"
  else
    Js.toFixed
      (Js.div nanoseconds (Js.mul (Js.of_Z 1000000000) (Js.of_Z 60))) 2
    ++ " minutes".

(** *** eventTypeToName and threadToColor

    [frameworkEventSeparator] is imported from
    [shared/FrameworkEventsTreeSelect]; it is an argument here. *)
Definition eventTypeToName (frameworkEventSeparator eventType : string)
    : string :=
  Js.slice eventType (Js.lastIndexOf eventType frameworkEventSeparator + 1).

Definition threadToColor (theme : Theme) (thread : option string) : string :=
  if decide (thread = Some "main") then warningColor theme
  else primaryColor theme.

(** *** The timeline handed to [TimelineDataDescription] *)
Record TimelineEntry := {
  moment : Js.number;
  display : string;
  color : string;
  key : string;
}.

(** [filteredEvents.map((event, idx) => ...)]; the index is a Number. *)
Definition timeline_time (theme : Theme) (frameworkEventSeparator : string)
    (filteredEvents : list FrameworkEvent) : list TimelineEntry :=
  imap
    (λ idx event,
       {| moment := timestamp event;
          display := eventTypeToName frameworkEventSeparator (type event);
          color := threadToColor theme (thread event);
          key := Js.toString (Js.of_Z (Z.of_nat idx)) |})
    filteredEvents.


(** *** The filter dropdown and its badge *)

(** [allThreads.length > 1 && ...], [allEventTypes.length > 1 && ...]:
    whether the section of the overlay is rendered. *)
Definition byThreadSection (events : list FrameworkEvent) : bool :=
  bool_decide (1 < length (allThreads events))%nat.

Definition byEventTypeSection (events : list FrameworkEvent) : bool :=
  bool_decide (1 < length (allEventTypes events))%nat.

(** The [text] of an event type item: [last(eventType.split('.'))]. *)
Definition eventTypeText (eventType : string) : option string :=
  Lodash.last (Js.split eventType ".").

(** The [count] of the badge. *)
Definition badgeCount (filteredEventTypes : gset string)
    (filteredThreads : gset (option string)) : nat :=
  size filteredEventTypes + size filteredThreads.

(** *** The [onClick] handler of the timeline *)

(** [array[idx]] for a Number [idx]: an element when [idx] is an
    integer index of the array, [undefined] otherwise. *)
Definition index {A} (array : list A) (idx : Js.number) : option A :=
  match Js.Z_of_number idx with
  | Some n => if 0 <=? n then array !! Z.to_nat n else None
  | None => None
  end.

(** The props of the [EventDetails] element. *)
Record EventDetailsProps := {
  props_frameworkEventMetadata : option FrameworkEventMetadata;
  props_event : FrameworkEvent;
  props_node : ClientNode;
}.

(** [showExtra] is optional: [showExtra] tells whether it was given.
    The result is the call made to it, title and element; reading
    [event.type] of [undefined] throws a TypeError, and the arguments
    are not evaluated when there is no [showExtra]. *)
Definition onClick (node : ClientNode) (showExtra : bool)
    (frameworkEventMetadata : gmap string FrameworkEventMetadata)
    (filteredEvents : list FrameworkEvent) (current : string)
    : Completion (option (string * EventDetailsProps)) :=
  let idx := Js.parseInt current in
  let event := index filteredEvents idx in
  if showExtra then
    match event with
    | Some event =>
        Normal (Some ("Event details",
                      {| props_frameworkEventMetadata :=
                           frameworkEventMetadata !! type event;
                         props_event := event;
                         props_node := node |}))
    | None => Throw "TypeError"
    end
  else Normal None.

End FrameworkEventsInspector.

(** ** PowerSearchEnumTerm.tsx *)

Module PowerSearchEnumTerm.

(** [enumLabels] is the list of the object's own properties, key and
    label, in property enumeration order; this is what [Object.entries]
    returns. *)
Definition Object_entries (enumLabels : list (string * string))
    : list (string * string) := enumLabels.

Record SelectOption := {
  label : string;
  value : string;
}.

Definition options (enumLabels : list (string * string))
    : list SelectOption :=
  (λ entry, let '(key, label) := entry in {| label := label; value := key |})
    <$> Object_entries enumLabels.


(** *** The handlers of the [Select]

    [selectValueRef.current] is the state, [undefined] at first; a
    handler returns the next state and the calls it makes. *)
Definition Ref := option string.

Inductive Effect :=
| OnCancel
| OnChange (value : string)
| CurrentTargetBlur.

#[global] Instance Effect_eq_dec : EqDecision Effect.
Proof. solve_decision. Defined.

(** [!selectValueRef.current]: [undefined] and the empty string are
    falsy. *)
Definition not_current (selectValueRef : Ref) : bool :=
  match selectValueRef with
  | None => true
  | Some current => bool_decide (current = "")
  end.

Definition onBlur (selectValueRef : Ref) : Ref * list Effect :=
  (selectValueRef, if not_current selectValueRef then [OnCancel] else []).

Definition onSelect (value : string) (selectValueRef : Ref)
    : Ref * list Effect :=
  (Some value, [OnChange value]).

Definition onKeyDown (key : string) (selectValueRef : Ref)
    : Ref * list Effect :=
  (selectValueRef,
   if bool_decide (key = "Enter") || bool_decide (key = "Escape")
   then [CurrentTargetBlur] else []).

(** The events the [Select] delivers, and the component handling a
    sequence of them. *)
Inductive SelectEvent :=
| Blur
| Select (value : string)
| KeyDown (key : string).

Definition handle (event : SelectEvent) (selectValueRef : Ref)
    : Ref * list Effect :=
  match event with
  | Blur => onBlur selectValueRef
  | Select value => onSelect value selectValueRef
  | KeyDown key => onKeyDown key selectValueRef
  end.

Fixpoint run (selectValueRef : Ref) (events : list SelectEvent)
    : Ref * list Effect :=
  match events with
  | [] => (selectValueRef, [])
  | event :: rest =>
      let '(ref1, calls1) := handle event selectValueRef in
      let '(ref2, calls2) := run ref1 rest in
      (ref2, (calls1 ++ calls2)%list)
  end.

End PowerSearchEnumTerm.

(** ** ConnectivityLogs.tsx *)

Module ConnectivityLogs.

Inductive ReactNode := CloseCircleFilled (style : CSSProperties).

Record LogType := {
  label : string;
  icon : option ReactNode;
  style : option CSSProperties;
  enabled : bool;
}.

(** The field of [ConnectionRecordEntry] that decides the row style. *)
Record ConnectionRecordEntry := {
  type : string;
  message : string;
}.

Definition iconStyle : CSSProperties := {[ "fontSize" := "16px" ]}.

(** [{...theme.monospace}] *)
Definition baseRowStyle (theme : Theme) : CSSProperties := monospace theme.

Definition logTypes (theme : Theme) : gmap string LogType :=
  <[ "log" := {| label := "Log"; icon := None; style := None;
                 enabled := true |} ]>
  (<[ "cmd" := {| label := "Shell";
                  icon := Some (CloseCircleFilled iconStyle);
                  style := Some (<[ "color" := primaryColor theme ]>
                                   (baseRowStyle theme));
                  enabled := true |} ]>
  (<[ "error" := {| label := "Error";
                    icon := Some (CloseCircleFilled iconStyle);
                    style := Some (<[ "color" := errorColor theme ]>
                                     (baseRowStyle theme));
                    enabled := true |} ]> ∅)).

(** The result of [logTypes[key]]: an own property, a member inherited
    from [Object.prototype], or [undefined]. *)
Inductive Property :=
| OwnProperty (v : LogType)
| PrototypeMember (name : string)
| Undefined.

Definition objectPrototypeKeys : list string :=
  [ "constructor"; "hasOwnProperty"; "isPrototypeOf";
    "propertyIsEnumerable"; "toLocaleString"; "toString"; "valueOf";
    "__proto__"; "__defineGetter__"; "__defineSetter__";
    "__lookupGetter__"; "__lookupSetter__" ].

Definition getProperty (object : gmap string LogType) (key : string)
    : Property :=
  match object !! key with
  | Some v => OwnProperty v
  | None =>
      if decide (key ∈ objectPrototypeKeys) then PrototypeMember key
      else Undefined
  end.

(** [value?.style]: no member of [Object.prototype] has a [style]. *)
Definition optional_style (value : Property) : option CSSProperties :=
  match value with
  | OwnProperty v => style v
  | PrototypeMember _ => None
  | Undefined => None
  end.

Definition getRowStyle (theme : Theme) (entry : ConnectionRecordEntry)
    : CSSProperties :=
  match optional_style (getProperty (logTypes theme) (type entry)) with
  | Some style => style
  | None => baseRowStyle theme
  end.

End ConnectivityLogs.

(** ** SandyApp.tsx *)

Module SandyApp.

Inductive ReactElement := AppInspect | Notification.

(** [leftMenuContent]; [null] is [None].  [topLevelSelection] is the
    store's value, a string or nothing. *)
Definition leftMenuContent (leftSidebarVisible : bool)
    (topLevelSelection : option string) : option ReactElement :=
  if negb leftSidebarVisible then None
  else if decide (topLevelSelection = Some "appinspect") then Some AppInspect
  else if decide (topLevelSelection = Some "notification")
       then Some Notification
  else None.


(** The child of the sidebar:
    [leftMenuContent && <TrackingScope scope={topLevelSelection!}>].
    The non-null assertion passes the value on as it is. *)
Record TrackingScope := {
  scope : option string;
  children : ReactElement;
}.

Definition sidebarChild (leftSidebarVisible : bool)
    (topLevelSelection : option string) : option TrackingScope :=
  match leftMenuContent leftSidebarVisible topLevelSelection with
  | Some content =>
      Some {| scope := topLevelSelection; children := content |}
  | None => None
  end.

End SandyApp.

(** * Specification vocabulary

    Notions the properties below are stated with; none of them is used by
    the components. *)

Module Spec.
Import ClientTypes.

(** What the two filter sets let through. *)
Definition passes (types : gset string) (threads : gset (option string))
    (e : FrameworkEvent) : Prop :=
  (types = ∅ ∨ type e ∈ types) ∧ (threads = ∅ ∨ thread e ∈ threads).

#[global] Instance passes_dec types threads e :
  Decision (passes types threads e).
Proof. unfold passes. apply _. Defined.

(** The position of the first occurrence of [k] in [l]. *)
Fixpoint first_index `{EqDecision K} (k : K) (l : list K) : option nat :=
  match l with
  | [] => None
  | x :: l' => if decide (x = k) then Some 0%nat else S <$> first_index k l'
  end.

(** [occurs sep s]: [sep] is a substring of [s]. *)
Fixpoint occurs (sep s : string) : bool :=
  String.prefix sep s
  || match s with
     | EmptyString => false
     | String _ rest => occurs sep rest
     end.

(** The valid binary64 datum of a positive integer below [2^53]: its
    53-bit mantissa and the matching exponent. *)
Definition canonical_integer (n : Z) : Js.number :=
  S754_finite false (Z.to_pos (n * 2 ^ (52 - Z.log2 n))) (Z.log2 n - 52).

(** [k] hundredths written with two decimal places: the integer part,
    a dot, and two digits. *)
Definition two_decimals (k : Z) : string :=
  Js.decimal (k / 100) ++ "."
  ++ String (Js.digit (k / 10 mod 10))
       (String (Js.digit (k mod 10)) EmptyString).

(** The number of hundredths nearest to a non-negative finite number,
    the larger one when two are equally near. *)
Definition hundredths (q : Js.number) : Z :=
  match q with
  | S754_finite _ m e => Js.round_half_up_scaled m e 2
  | _ => 0
  end.

(** [q] is finite and its magnitude is below [10^21]. *)
Definition below_1e21 (q : Js.number) : bool :=
  match q with
  | S754_zero _ => true
  | S754_finite _ m e =>
      match Js.compare_scaled (Zpos m) e 0 1 0 21 with
      | Lt => true
      | _ => false
      end
  | _ => false
  end.

(** [k] hundredths differ from [n / c] by less than one hundredth. *)
Definition within_a_hundredth (k n c : Z) : Prop :=
  (k - 1) * c < 100 * n < (k + 1) * c.

(** The three decimal digits of [m], for [0 <= m < 1000]. *)
Definition three_digits (m : Z) : string :=
  String (Js.digit (m / 100))
    (String (Js.digit (m / 10 mod 10))
       (String (Js.digit (m mod 10)) EmptyString)).

(** A host one hour ahead of UTC at all times, with a constant
    formatted time of day. *)
Definition utc_plus_one : Host :=
  {| formatTime := λ _, "12:34:56"; localTZA := λ _, 3600000 |}.

(** A theme and two events, for worked instances. *)
Definition example_theme : Theme :=
  {| warningColor := "orange"; primaryColor := "purple";
     errorColor := "red"; monospace := {[ "fontFamily" := "monospace" ]} |}.

Definition example_events : list FrameworkEvent :=
  [ {| type := "Litho.Layout"; thread := Some "main";
       timestamp := Js.of_Z 1700000000123 |};
    {| type := "Litho.Mount"; thread := Some "background";
       timestamp := Js.of_Z 1700000000456 |} ].

(** The value an effect passes to [onChange], and the value a [Select]
    event selects. *)
Definition changed (call : PowerSearchEnumTerm.Effect) : option string :=
  match call with
  | PowerSearchEnumTerm.OnChange value => Some value
  | _ => None
  end.

Definition selected (event : PowerSearchEnumTerm.SelectEvent)
    : option string :=
  match event with
  | PowerSearchEnumTerm.Select value => Some value
  | _ => None
  end.

End Spec.

(** * Properties *)

(** ** Filtering the events (C1) *)

Section Filtering.
Import ClientTypes FrameworkEventsInspector Spec.

Implicit Types (events : list FrameworkEvent) (e : FrameworkEvent).
Implicit Types (types : gset string) (threads : gset (option string)).

Lemma filter_filter_and {A} (P Q : A → Prop)
    `{∀ x, Decision (P x)} `{∀ x, Decision (Q x)} (l : list A) :
  filter Q (filter P l) = filter (λ x, P x ∧ Q x) l.
Proof.
  induction l as [|x l IH]; [done|].
  rewrite (filter_cons P), (filter_cons (λ x, P x ∧ Q x)).
  destruct (decide (P x)) as [HP|HP].
  - rewrite (filter_cons Q).
    destruct (decide (Q x)), (decide (P x ∧ Q x)); try tauto; by rewrite IH.
  - destruct (decide (P x ∧ Q x)); [tauto|done].
Qed.

(** C1: the filtered list is [events] restricted to the events whose
    type passes the type filter and whose thread passes the thread
    filter (an empty filter set lets everything through); it keeps
    multiplicities and the relative order of [events]. *)
Theorem filteredEvents_spec events types threads :
  filteredEvents events types threads = filter (passes types threads) events
  ∧ (∀ e, e ∈ filteredEvents events types threads
          ↔ e ∈ events ∧ passes types threads e)
  ∧ sublist (filteredEvents events types threads) events.
Proof.
  assert (Heq : filteredEvents events types threads
                = filter (passes types threads) events).
  { unfold filteredEvents. rewrite filter_filter_and.
    apply list_filter_iff. intros e. unfold passes.
    by rewrite !size_empty_iff, !leibniz_equiv_iff. }
  rewrite Heq. split; [done|]. split.
  - intros e. rewrite list_elem_of_filter. tauto.
  - apply sublist_filter.
Qed.

End Filtering.

(** ** The dropdown's filter-set updates (C4) *)

Section FilterSets.
Import FrameworkEventsInspector.
Context `{Countable A}.
Implicit Types (s : gset A) (v x : A).

(** C4: selecting [v] adds it to the filter set, deselecting removes
    it, and selecting then deselecting a value that was not in the set
    gives the set back. *)
Theorem onSelect_spec s v :
  onSelect v true s = s ∪ {[ v ]}
  ∧ onSelect v false s = s ∖ {[ v ]}
  ∧ (∀ x, x ∈ onSelect v true s ↔ x = v ∨ x ∈ s)
  ∧ (∀ x, x ∈ onSelect v false s ↔ x ∈ s ∧ x ≠ v)
  ∧ (v ∉ s → onSelect v false (onSelect v true s) = s).
Proof.
  unfold onSelect, produce. split_and!.
  - apply union_comm_L.
  - done.
  - intros x. rewrite elem_of_union, elem_of_singleton. tauto.
  - intros x. rewrite elem_of_difference, elem_of_singleton. tauto.
  - intros Hv. apply set_eq. intros x.
    rewrite elem_of_difference, elem_of_union, elem_of_singleton.
    split; [tauto|]. intros Hx. split; [tauto|]. by intros ->.
Qed.

End FilterSets.

(** ** The derived thread and event-type lists (C10) *)

Section Uniq.
Import Lodash Spec.
Context {A K : Type} `{EqDecision K} (f : A → K).
Implicit Types (l : list A) (seen ks : list K).

Lemma fmap_baseUniq seen l :
  f <$> baseUniq f seen l = baseUniq id seen (f <$> l).
Proof.
  revert seen. induction l as [|x l IH]; intros seen; simpl; [done|].
  destruct (decide (f x ∈ seen)); simpl; by rewrite IH.
Qed.

Lemma elem_of_baseUniq_id seen ks k :
  k ∈ baseUniq id seen ks ↔ k ∈ ks ∧ k ∉ seen.
Proof.
  revert seen. induction ks as [|x ks IH]; intros seen; simpl.
  - rewrite elem_of_nil. tauto.
  - destruct (decide (x ∈ seen)) as [Hx|Hx].
    + rewrite IH, elem_of_cons. split; [tauto|].
      intros [[->|?] ?]; tauto.
    + rewrite !elem_of_cons, IH, elem_of_app, list_elem_of_singleton.
      destruct (decide (k = x)) as [->|]; tauto.
Qed.

Lemma NoDup_baseUniq_id seen ks : NoDup (baseUniq id seen ks).
Proof.
  revert seen. induction ks as [|x ks IH]; intros seen; simpl.
  - constructor.
  - destruct (decide (x ∈ seen)); [apply IH|].
    constructor; [|apply IH].
    rewrite elem_of_baseUniq_id, elem_of_app, list_elem_of_singleton. tauto.
Qed.

Lemma first_index_elem ks k : k ∈ ks → is_Some (first_index k ks).
Proof.
  induction ks as [|x ks IH]; simpl; [by intros ?%elem_of_nil|].
  intros [->|Hin]%elem_of_cons.
  - rewrite decide_True by done. eauto.
  - destruct (decide (x = k)); [eauto|].
    destruct (IH Hin) as [a ->]. simpl. eauto.
Qed.

Lemma baseUniq_id_order seen ks i j t u :
  (i < j)%nat →
  baseUniq id seen ks !! i = Some t →
  baseUniq id seen ks !! j = Some u →
  ∃ a b, first_index t ks = Some a ∧ first_index u ks = Some b ∧ (a < b)%nat.
Proof.
  revert seen i j.
  induction ks as [|x ks IH]; intros seen i j Hij Hi Hj; simpl in *; [done|].
  assert (Hlater : ∀ seen' n w,
    baseUniq id seen' ks !! n = Some w → x ∈ seen' → w ≠ x).
  { intros seen' n w Hn Hx ->.
    apply list_elem_of_lookup_2, elem_of_baseUniq_id in Hn. tauto. }
  destruct (decide (x ∈ seen)) as [Hx|Hx].
  - destruct (IH _ _ _ Hij Hi Hj) as (a & b & Ha & Hb & Hab).
    pose proof (Hlater _ _ _ Hi Hx) as Ht.
    pose proof (Hlater _ _ _ Hj Hx) as Hu.
    exists (S a), (S b).
    rewrite !decide_False, Ha, Hb by done.
    simpl. split_and!; [done..|lia].
  - assert (Hx' : x ∈ (seen ++ [x])%list)
      by (rewrite elem_of_app, list_elem_of_singleton; tauto).
    destruct j as [|j]; [lia|]. simpl in Hj.
    pose proof (Hlater _ _ _ Hj Hx') as Hu.
    assert (is_Some (first_index u ks)) as [b Hb].
    { apply first_index_elem.
      apply list_elem_of_lookup_2, elem_of_baseUniq_id in Hj. tauto. }
    destruct i as [|i]; simpl in Hi.
    + injection Hi as <-. exists 0%nat, (S b).
      rewrite decide_True, decide_False, Hb by done.
      simpl. split_and!; [done..|lia].
    + pose proof (Hlater _ _ _ Hi Hx') as Ht.
      destruct (IH _ i j ltac:(lia) Hi Hj) as (a & b' & Ha & Hb' & Hab).
      exists (S a), (S b').
      rewrite !decide_False, Ha, Hb' by done.
      simpl. split_and!; [done..|lia].
Qed.

(** The list of keys of [uniqBy l f]: every key of [l] once, in the
    order of the keys' first occurrences in [l]. *)
Lemma uniqBy_keys l :
  NoDup (f <$> uniqBy l f)
  ∧ (∀ k, k ∈ f <$> uniqBy l f ↔ ∃ x, x ∈ l ∧ f x = k)
  ∧ (∀ i j t u,
       (i < j)%nat →
       (f <$> uniqBy l f) !! i = Some t →
       (f <$> uniqBy l f) !! j = Some u →
       ∃ a b, first_index t (f <$> l) = Some a
              ∧ first_index u (f <$> l) = Some b ∧ (a < b)%nat).
Proof.
  unfold uniqBy. rewrite fmap_baseUniq. split_and!.
  - apply NoDup_baseUniq_id.
  - intros k. rewrite elem_of_baseUniq_id, list_elem_of_fmap, elem_of_nil.
    split.
    + intros [(x & -> & Hx) _]. eauto.
    + intros (x & Hx & <-). split; [eauto|tauto].
  - intros i j t u. apply baseUniq_id_order.
Qed.

End Uniq.

Section DerivedLists.
Import ClientTypes FrameworkEventsInspector Spec.
Implicit Types (events : list FrameworkEvent).

(** C10: [allThreads] and [allEventTypes] have no duplicates, contain
    exactly the thread (event type) values occurring in [events], and
    list them in the order of their first occurrences. *)
Theorem allThreads_allEventTypes_spec events :
  (NoDup (allThreads events)
   ∧ (∀ t, t ∈ allThreads events ↔ ∃ e, e ∈ events ∧ thread e = t)
   ∧ (∀ i j t u,
        (i < j)%nat →
        allThreads events !! i = Some t → allThreads events !! j = Some u →
        ∃ a b, first_index t (thread <$> events) = Some a
               ∧ first_index u (thread <$> events) = Some b ∧ (a < b)%nat))
  ∧ (NoDup (allEventTypes events)
     ∧ (∀ t, t ∈ allEventTypes events ↔ ∃ e, e ∈ events ∧ type e = t)
     ∧ (∀ i j t u,
          (i < j)%nat →
          allEventTypes events !! i = Some t →
          allEventTypes events !! j = Some u →
          ∃ a b, first_index t (type <$> events) = Some a
                 ∧ first_index u (type <$> events) = Some b ∧ (a < b)%nat)).
Proof. split; apply uniqBy_keys. Qed.

End DerivedLists.

(** ** The options of the enum term (C9) *)

Section EnumOptions.
Import PowerSearchEnumTerm.
Implicit Types (enumLabels : list (string * string)).

Lemma filter_key_absent {X Y} `{EqDecision Y} (g : X → Y) (l : list X) y :
  y ∉ g <$> l → filter (λ x, g x = y) l = [].
Proof.
  induction l as [|x l IH]; [done|]. rewrite fmap_cons, not_elem_of_cons.
  intros [Hne Hnin]. rewrite filter_cons, decide_False by done. by apply IH.
Qed.

Lemma filter_key_unique {X Y} `{EqDecision Y} (g : X → Y) (l : list X) y :
  NoDup (g <$> l) → y ∈ g <$> l →
  length (filter (λ x, g x = y) l) = 1%nat.
Proof.
  induction l as [|x l IH]; [by intros _ ?%elem_of_nil|].
  rewrite fmap_cons, NoDup_cons, elem_of_cons. intros [Hx Hnd] Hy.
  rewrite filter_cons. destruct (decide (g x = y)) as [<-|Hne].
  - by rewrite filter_key_absent.
  - destruct Hy as [->|Hy]; [done|]. by apply IH.
Qed.

Lemma options_value enumLabels : value <$> options enumLabels = enumLabels.*1.
Proof.
  unfold options, Object_entries. rewrite <- list_fmap_compose.
  apply list_fmap_ext. by intros _ [key lbl] _.
Qed.

(** C9: the options are the entries of [enumLabels] in enumeration
    order, entry [(key, label)] becoming the option with that value and
    label; as the keys of an object are distinct, each key is the value
    of exactly one option. *)
Theorem options_spec enumLabels :
  length (options enumLabels) = length enumLabels
  ∧ (∀ (i : nat) key lbl,
       enumLabels !! i = Some (key, lbl) →
       options enumLabels !! i = Some {| label := lbl; value := key |})
  ∧ (∀ (i : nat) o,
       options enumLabels !! i = Some o →
       enumLabels !! i = Some (value o, label o))
  ∧ (NoDup enumLabels.*1 →
     ∀ key, key ∈ enumLabels.*1 →
       length (filter (λ o, value o = key) (options enumLabels)) = 1%nat).
Proof.
  split_and!.
  - unfold options, Object_entries. apply length_fmap.
  - intros i key lbl Hi. unfold options, Object_entries.
    by rewrite list_lookup_fmap, Hi.
  - intros i [lbl key]. unfold options, Object_entries.
    rewrite list_lookup_fmap. destruct (enumLabels !! i) as [[k l]|]; simpl.
    + by intros [= -> ->].
    + done.
  - intros Hkeys key Hkey. rewrite <- options_value in Hkeys, Hkey.
    by apply filter_key_unique.
Qed.

End EnumOptions.

(** ** The left menu of the application shell (C7) *)

Section LeftMenu.
Import SandyApp.
Implicit Types (visible : bool) (selection : option string).

(** C7: the left menu shows AppInspect exactly when the sidebar is
    visible and the selection is 'appinspect', Notification exactly when
    the sidebar is visible and the selection is 'notification', and
    nothing in every other state. *)
Theorem leftMenuContent_spec visible selection :
  (leftMenuContent visible selection = Some AppInspect
   ↔ visible = true ∧ selection = Some "appinspect")
  ∧ (leftMenuContent visible selection = Some Notification
     ↔ visible = true ∧ selection = Some "notification")
  ∧ (leftMenuContent visible selection = None
     ↔ ¬ (visible = true
          ∧ (selection = Some "appinspect"
             ∨ selection = Some "notification")))
  ∧ (visible = false → leftMenuContent visible selection = None).
Proof.
  unfold leftMenuContent.
  destruct visible; simpl; repeat case_decide; subst;
    split_and!; try split; try done;
    try (intros [? ?]; congruence);
    try (intros ? [? [?|?]]; congruence);
    try (intros Hno; exfalso; apply Hno; tauto).
Qed.

End LeftMenu.

(** ** The row style of a connectivity log entry (C5) *)

Section RowStyle.
Import ConnectivityLogs.
Variable theme : Theme.
Implicit Types (entry : ConnectionRecordEntry).

Lemma logTypes_lookup key :
  logTypes theme !! key =
    if decide (key = "log") then
      Some {| label := "Log"; icon := None; style := None; enabled := true |}
    else if decide (key = "cmd") then
      Some {| label := "Shell"; icon := Some (CloseCircleFilled iconStyle);
              style := Some (<[ "color" := primaryColor theme ]>
                               (baseRowStyle theme));
              enabled := true |}
    else if decide (key = "error") then
      Some {| label := "Error"; icon := Some (CloseCircleFilled iconStyle);
              style := Some (<[ "color" := errorColor theme ]>
                               (baseRowStyle theme));
              enabled := true |}
    else None.
Proof.
  unfold logTypes. repeat case_decide; subst; by simplify_map_eq.
Qed.

(** C5: [getRowStyle] returns the style that [logTypes] registers for
    the entry's type when there is one, and the base row style, which
    is the theme's monospace style, otherwise: for type 'log', which is
    listed without a style, and for every type that is not listed. *)
Theorem getRowStyle_spec entry :
  (∀ logType rowStyle,
     logTypes theme !! type entry = Some logType →
     style logType = Some rowStyle →
     getRowStyle theme entry = rowStyle)
  ∧ ((∀ logType, logTypes theme !! type entry = Some logType →
                 style logType = None) →
     getRowStyle theme entry = baseRowStyle theme)
  ∧ baseRowStyle theme = monospace theme
  ∧ (type entry = "log" → getRowStyle theme entry = baseRowStyle theme)
  ∧ (type entry ∉ dom (logTypes theme) →
     getRowStyle theme entry = baseRowStyle theme)
  ∧ (type entry = "cmd" →
     getRowStyle theme entry
     = <[ "color" := primaryColor theme ]> (baseRowStyle theme))
  ∧ (type entry = "error" →
     getRowStyle theme entry
     = <[ "color" := errorColor theme ]> (baseRowStyle theme)).
Proof.
  assert (Hnone : (∀ logType, logTypes theme !! type entry = Some logType →
                              style logType = None) →
                  getRowStyle theme entry = baseRowStyle theme).
  { intros Hno. unfold getRowStyle, getProperty.
    destruct (logTypes theme !! type entry) as [logType|] eqn:Hl; simpl.
    - by rewrite (Hno logType).
    - by case_decide. }
  assert (Hsome : ∀ logType rowStyle,
     logTypes theme !! type entry = Some logType →
     style logType = Some rowStyle →
     getRowStyle theme entry = rowStyle).
  { intros logType rowStyle Hl Hs. unfold getRowStyle, getProperty.
    rewrite Hl. simpl. by rewrite Hs. }
  split_and!.
  - exact Hsome.
  - exact Hnone.
  - done.
  - intros Hlog. apply Hnone. intros logType.
    rewrite logTypes_lookup, Hlog. simpl. by intros [= <-].
  - intros Hdom. apply Hnone. intros logType Hl.
    apply not_elem_of_dom in Hdom. congruence.
  - intros Hcmd. eapply Hsome; [by rewrite logTypes_lookup, Hcmd|done].
  - intros Herr. eapply Hsome; [by rewrite logTypes_lookup, Herr|done].
Qed.

End RowStyle.

(** ** Strings: [lastIndexOf] and [slice] *)

Section Strings.
Import Js Spec.
Implicit Types (s sep pre post : string) (from : Z).

Lemma append_String (c : ascii) s1 s2 :
  String c s1 ++ s2 = String c (s1 ++ s2).
Proof. reflexivity. Qed.

Lemma append_empty s : "" ++ s = s.
Proof. reflexivity. Qed.

Lemma append_assoc s1 s2 s3 : (s1 ++ s2) ++ s3 = s1 ++ s2 ++ s3.
Proof.
  induction s1 as [|c s1 IH]; [done|]. rewrite !append_String. by f_equal.
Qed.

Lemma length_append s1 s2 :
  String.length (s1 ++ s2) = (String.length s1 + String.length s2)%nat.
Proof.
  induction s1 as [|c s1 IH]; [done|]. rewrite append_String. simpl. lia.
Qed.

Lemma prefix_iff sep s :
  String.prefix sep s = true ↔ ∃ post, s = sep ++ post.
Proof.
  revert s. induction sep as [|c sep IH]; intros s.
  - split; [intros _; by exists s|]. by destruct s.
  - destruct s as [|c' s]; simpl.
    + split; [done|]. by intros [post ?].
    + destruct (ascii_dec c c') as [->|Hne].
      * rewrite IH. split; intros [post Hp]; exists post;
          rewrite append_String in *; congruence.
      * split; [done|]. intros [post Hp].
        rewrite append_String in Hp. congruence.
Qed.

Lemma occurs_nil sep : occurs sep "" = String.prefix sep "" || false.
Proof. reflexivity. Qed.

Lemma occurs_cons sep c s :
  occurs sep (String c s) = String.prefix sep (String c s) || occurs sep s.
Proof. reflexivity. Qed.

Lemma lastIndexOf_from_nil from sep :
  lastIndexOf_from from "" sep = if String.prefix sep "" then from else -1.
Proof. reflexivity. Qed.

Lemma lastIndexOf_from_cons from c s sep :
  lastIndexOf_from from (String c s) sep =
    if 0 <=? lastIndexOf_from (from + 1) s sep
    then lastIndexOf_from (from + 1) s sep
    else if String.prefix sep (String c s) then from else -1.
Proof. reflexivity. Qed.

(** [occurs] is the substring relation. *)
Lemma occurs_iff sep s :
  occurs sep s = true ↔ ∃ pre post, s = pre ++ sep ++ post.
Proof.
  induction s as [|c s IH].
  - rewrite occurs_nil, orb_true_iff, prefix_iff. split.
    + intros [[post Hp]|?]; [|done]. by exists "", post.
    + intros (pre & post & Hp). left. exists post.
      by destruct pre.
  - rewrite occurs_cons, orb_true_iff, prefix_iff, IH. split.
    + intros [[post Hp]|(pre & post & ->)].
      * by exists "", post.
      * by exists (String c pre), post.
    + intros ([|c' pre] & post & Hp).
      * left. by exists post.
      * right. exists pre, post. rewrite append_String in Hp. congruence.
Qed.

Lemma lastIndexOf_from_absent sep s from :
  occurs sep s = false → lastIndexOf_from from s sep = -1.
Proof.
  revert from. induction s as [|c s IH]; intros from.
  - rewrite occurs_nil, orb_false_iff, lastIndexOf_from_nil.
    by intros [-> _].
  - rewrite occurs_cons, orb_false_iff, lastIndexOf_from_cons.
    intros [Hp Ho]. by rewrite (IH _ Ho), Hp.
Qed.

Lemma lastIndexOf_from_here sep s from :
  String.prefix sep s = true →
  (∀ c rest, s = String c rest → occurs sep rest = false) →
  lastIndexOf_from from s sep = from.
Proof.
  intros Hp Hrest. destruct s as [|c rest].
  - by rewrite lastIndexOf_from_nil, Hp.
  - rewrite lastIndexOf_from_cons.
    by rewrite (lastIndexOf_from_absent _ _ _ (Hrest _ _ eq_refl)), Hp.
Qed.

Lemma lastIndexOf_from_app sep pre s from :
  0 <= lastIndexOf_from (from + Z.of_nat (String.length pre)) s sep →
  lastIndexOf_from from (pre ++ s) sep
  = lastIndexOf_from (from + Z.of_nat (String.length pre)) s sep.
Proof.
  revert from. induction pre as [|c pre IH]; intros from; simpl String.length.
  - by rewrite Z.add_0_r.
  - replace (from + Z.of_nat (S (String.length pre)))
      with (from + 1 + Z.of_nat (String.length pre)) by lia.
    intros Hge. rewrite append_String, lastIndexOf_from_cons, (IH _ Hge).
    by apply Z.leb_le in Hge as ->.
Qed.

Lemma substring_all s : substring 0 (String.length s) s = s.
Proof. induction s as [|c s IH]; simpl; congruence. Qed.

Lemma substring_skip pre s (m : nat) :
  substring (String.length pre) m (pre ++ s) = substring 0 m s.
Proof. induction pre as [|c pre IH]; [done|apply IH]. Qed.

Lemma slice_0 s : slice s 0 = s.
Proof.
  unfold slice. simpl.
  rewrite Z.min_l, Z.sub_0_r, Nat2Z.id by lia. apply substring_all.
Qed.

Lemma slice_app pre s : slice (pre ++ s) (Z.of_nat (String.length pre)) = s.
Proof.
  unfold slice. rewrite length_append.
  destruct (Z.ltb_spec (Z.of_nat (String.length pre)) 0) as [?|_]; [lia|].
  rewrite Z.min_l by lia.
  replace (Z.to_nat (Z.of_nat (String.length pre + String.length s)
                     - Z.of_nat (String.length pre)))
    with (String.length s) by lia.
  rewrite Nat2Z.id, substring_skip. apply substring_all.
Qed.

Lemma substring_prefix s1 s2 :
  substring 0 (String.length s1) (s1 ++ s2) = s1.
Proof.
  induction s1 as [|c s1 IH]; [by destruct s2|].
  rewrite append_String. simpl. by rewrite IH.
Qed.

Lemma substring_suffix s1 s2 :
  substring (String.length s1) (String.length s2) (s1 ++ s2) = s2.
Proof. rewrite substring_skip. apply substring_all. Qed.

End Strings.

(** ** Decimal digits *)

Section Decimal.
Import Js Spec.
Implicit Types (n k : Z) (fuel : nat).

Lemma decimal_fuel_S fuel n :
  decimal_fuel (S fuel) n =
    (if n <? 10 then "" else decimal_fuel fuel (n / 10))
    ++ String (digit (n mod 10)) "".
Proof. reflexivity. Qed.

Lemma decimal_fuel_enough fuel1 fuel2 n :
  0 <= n < 2 ^ Z.of_nat (S fuel1) → n < 2 ^ Z.of_nat (S fuel2) →
  decimal_fuel (S fuel1) n = decimal_fuel (S fuel2) n.
Proof.
  revert fuel2 n. induction fuel1 as [|fuel1 IH]; intros fuel2 n Hn1 Hn2.
  - change (2 ^ Z.of_nat 1) with 2 in Hn1. rewrite !decimal_fuel_S.
    destruct (Z.ltb_spec n 10); [done|lia].
  - rewrite (decimal_fuel_S (S fuel1)), (decimal_fuel_S fuel2).
    destruct (Z.ltb_spec n 10) as [|Hge]; [done|]. f_equal.
    rewrite Nat2Z.inj_succ, Z.pow_succ_r in Hn1, Hn2 by lia.
    assert (Hdiv : n / 10 <= n / 2).
    { apply Z.div_le_compat_l; lia. }
    assert (n / 2 < 2 ^ Z.of_nat (S fuel1))
      by (apply Z.div_lt_upper_bound; lia).
    destruct fuel2 as [|fuel2].
    { change (2 ^ Z.of_nat 0) with 1 in Hn2. lia. }
    apply IH.
    + split; [apply Z.div_pos; lia|lia].
    + assert (n / 2 < 2 ^ Z.of_nat (S fuel2))
        by (apply Z.div_lt_upper_bound; lia). lia.
Qed.

Lemma decimal_small n : 0 <= n < 10 → decimal n = String (digit n) "".
Proof.
  intros Hn. unfold decimal. rewrite decimal_fuel_S.
  destruct (Z.ltb_spec n 10); [|lia]. by rewrite Z.mod_small.
Qed.

Lemma decimal_step n :
  10 <= n → decimal n = decimal (n / 10) ++ String (digit (n mod 10)) "".
Proof.
  intros Hn. unfold decimal at 1. rewrite decimal_fuel_S.
  destruct (Z.ltb_spec n 10); [lia|]. f_equal.
  pose proof (Z.log2_spec n ltac:(lia)) as [Hlo Hhi].
  assert (Hlog : 3 <= Z.log2 n).
  { apply Z.log2_le_pow2; [lia|]. simpl. lia. }
  assert (Hq : 0 < n / 10) by (apply Z.div_str_pos; lia).
  pose proof (Z.log2_spec (n / 10) Hq) as [Hlo' Hhi'].
  pose proof (Z.log2_nonneg (n / 10)).
  destruct (Z.to_nat (Z.log2 n)) as [|fuel] eqn:Hfuel; [lia|].
  unfold decimal. apply decimal_fuel_enough.
  - rewrite <- Hfuel, Z2Nat.id by lia. split; [lia|].
    apply Z.div_lt_upper_bound; [lia|].
    rewrite Z.pow_succ_r in Hhi by lia. lia.
  - rewrite Nat2Z.inj_succ, Z2Nat.id by lia. exact Hhi'.
Qed.

Lemma decimal_nonempty n : (1 <= String.length (decimal n))%nat.
Proof.
  unfold decimal. rewrite decimal_fuel_S, length_append. simpl. lia.
Qed.

(** Inserting the decimal point before the last two digits of the
    digits of [k] writes [k] hundredths with two decimal places. *)
Lemma insert_point_decimal k :
  0 <= k → insert_point 2 (decimal k) = two_decimals k.
Proof.
  intros Hk. unfold insert_point, two_decimals.
  rewrite decide_False by done.
  destruct (Z.lt_ge_cases k 10) as [H10|H10];
    [|destruct (Z.lt_ge_cases k 100) as [H100|H100]].
  - rewrite (Z.div_small k 100), (Z.div_small k 10), (Z.mod_small k 10)
      by lia.
    by rewrite !decimal_small by lia.
  - assert (Hq : 0 <= k / 10 < 10)
      by (split; [apply Z.div_pos|apply Z.div_lt_upper_bound]; lia).
    rewrite (Z.div_small k 100) by lia.
    rewrite (decimal_step k) by lia.
    rewrite (decimal_small (k / 10)), (decimal_small 0) by lia.
    by rewrite (Z.mod_small (k / 10)) by lia.
  - assert (H10' : 10 <= k / 10) by (apply Z.div_le_lower_bound; lia).
    rewrite (decimal_step k), (decimal_step (k / 10)) by lia.
    rewrite Z.div_div by lia. change (10 * 10) with 100.
    rewrite append_assoc, append_String, append_empty.
    set (d := decimal (k / 100)).
    set (t := String (digit (k / 10 mod 10)) (String (digit (k mod 10)) "")).
    pose proof (decimal_nonempty (k / 100)) as Hd. fold d in Hd.
    assert (Hlen : String.length (d ++ t) = (String.length d + 2)%nat)
      by (rewrite length_append; done).
    rewrite decide_False by lia. rewrite Hlen.
    replace (String.length d + 2 - 2)%nat with (String.length d) by lia.
    assert (Hsuffix : substring (String.length d) 2 (d ++ t) = t)
      by apply (substring_suffix d t).
    by rewrite substring_prefix, Hsuffix.
Qed.

Lemma append_empty_r s : s ++ "" = s.
Proof. induction s as [|c s IH]; [done|]. by rewrite append_String, IH. Qed.

Lemma repeat_snoc c (t : nat) :
  repeat c t ++ String c "" = String c (repeat c t).
Proof.
  induction t as [|t IH]; [done|]. simpl repeat.
  by rewrite append_String, IH.
Qed.

Lemma decimal_pow10 s (t : nat) :
  0 < s → decimal (s * 10 ^ Z.of_nat t) = decimal s ++ repeat "0" t.
Proof.
  intros Hs. induction t as [|t IH].
  - by rewrite Z.mul_1_r, append_empty_r.
  - rewrite Nat2Z.inj_succ, Z.pow_succ_r by lia.
    assert (0 < 10 ^ Z.of_nat t) by (apply Z.pow_pos_nonneg; lia).
    replace (s * (10 * 10 ^ Z.of_nat t)) with (s * 10 ^ Z.of_nat t * 10)
      by ring.
    rewrite decimal_step by nia.
    rewrite Z.div_mul, Z.mod_mul, IH by lia.
    rewrite append_assoc. f_equal. apply (repeat_snoc "0").
Qed.

(** The three digits of a number of milliseconds. *)
Lemma padStart_decimal n :
  0 <= n < 1000 → padStart 3 "0" (decimal n) = three_digits n.
Proof.
  intros [Hn0 Hn]. unfold padStart, three_digits.
  destruct (Z.lt_ge_cases n 10) as [H10|H10];
    [|destruct (Z.lt_ge_cases n 100) as [H100|H100]].
  - rewrite (Z.div_small n 100), (Z.div_small n 10), (Z.mod_small n 10)
      by lia.
    by rewrite decimal_small by lia.
  - assert (Hq : 0 <= n / 10 < 10)
      by (split; [apply Z.div_pos|apply Z.div_lt_upper_bound]; lia).
    rewrite (Z.div_small n 100) by lia.
    rewrite (decimal_step n), (decimal_small (n / 10)) by lia.
    by rewrite (Z.mod_small (n / 10)) by lia.
  - assert (Hq : 10 <= n / 10)
      by (apply Z.div_le_lower_bound; lia).
    assert (Hq' : 0 <= n / 100 < 10)
      by (split; [apply Z.div_pos|apply Z.div_lt_upper_bound]; lia).
    rewrite (decimal_step n), (decimal_step (n / 10)) by lia.
    rewrite Z.div_div by lia. change (10 * 10) with 100.
    by rewrite (decimal_small (n / 100)) by lia.
Qed.

End Decimal.

(** ** The display name of an event type (C8) *)

Section EventTypeName.
Import Js Spec FrameworkEventsInspector.
Implicit Types (sep eventType pre post : string).

(** With a separator of one character, a string in which it occurs
    splits at its last occurrence. *)
Lemma last_occurrence sep s :
  String.length sep = 1%nat → occurs sep s = true →
  ∃ pre post, s = pre ++ sep ++ post ∧ occurs sep post = false.
Proof.
  intros Hlen. destruct sep as [|c [|c' sep']]; try done. clear Hlen.
  induction s as [|a s IH]; [done|].
  rewrite occurs_cons. destruct (occurs (String c "") s) eqn:Hlater.
  - intros _. destruct (IH eq_refl) as (pre & post & -> & Hpost).
    by exists (String a pre), post.
  - rewrite orb_false_r. intros [post Hp]%prefix_iff.
    rewrite append_String, append_empty in Hp. injection Hp as -> ->.
    by exists "", post.
Qed.

(** C8: with a separator of one character, an event type in which the
    separator does not occur is returned whole ([lastIndexOf] is [-1],
    the slice starts at [0]); an event type in which it occurs is
    [pre ++ sep ++ post] with no separator in [post], so that this
    occurrence is the last one, and it is mapped to [post]. *)
Theorem eventTypeToName_spec sep eventType :
  String.length sep = 1%nat →
  (occurs sep eventType = false →
   lastIndexOf eventType sep = -1
   ∧ eventTypeToName sep eventType = eventType)
  ∧ (∀ pre post,
       eventType = pre ++ sep ++ post → occurs sep post = false →
       lastIndexOf eventType sep = Z.of_nat (String.length pre)
       ∧ eventTypeToName sep eventType = post)
  ∧ (occurs sep eventType = true →
     ∃ pre post, eventType = pre ++ sep ++ post ∧ occurs sep post = false
                 ∧ eventTypeToName sep eventType = post).
Proof.
  intros Hlen.
  assert (Hlast : ∀ pre post,
    eventType = pre ++ sep ++ post → occurs sep post = false →
    lastIndexOf eventType sep = Z.of_nat (String.length pre)
    ∧ eventTypeToName sep eventType = post).
  { intros pre post -> Hpost.
    destruct sep as [|c [|c' sep']]; try done.
    assert (Hidx : lastIndexOf (pre ++ String c "" ++ post) (String c "")
                   = Z.of_nat (String.length pre)).
    { unfold lastIndexOf.
      assert (Hhere : lastIndexOf_from (0 + Z.of_nat (String.length pre))
                        (String c "" ++ post) (String c "")
                      = 0 + Z.of_nat (String.length pre)).
      { apply lastIndexOf_from_here.
        - apply prefix_iff. by exists post.
        - by intros c' rest [= _ <-]. }
      rewrite lastIndexOf_from_app; rewrite Hhere; lia. }
    split; [done|]. unfold eventTypeToName. rewrite Hidx.
    rewrite <- append_assoc.
    replace (Z.of_nat (String.length pre) + 1)
      with (Z.of_nat (String.length (pre ++ String c ""))).
    + apply slice_app.
    + rewrite length_append. simpl. lia. }
  split_and!.
  - intros Habsent. unfold eventTypeToName, lastIndexOf.
    rewrite (lastIndexOf_from_absent _ _ _ Habsent). split; [done|].
    apply slice_0.
  - exact Hlast.
  - intros Hoccurs.
    destruct (last_occurrence sep eventType Hlen Hoccurs)
      as (pre & post & Heq & Hpost).
    exists pre, post. split_and!; [done..|].
    by destruct (Hlast pre post Heq Hpost).
Qed.

End EventTypeName.

(** ** Numbers *)

Section Numbers.
Import Js Spec.
Implicit Types (x : number) (m : positive) (e n : Z).

Lemma digits2_bounds m :
  2 ^ (Zpos (digits2_pos m) - 1) <= Zpos m < 2 ^ Zpos (digits2_pos m).
Proof.
  induction m as [m IH|m IH|]; simpl digits2_pos; [| |simpl; lia].
  - rewrite Pos2Z.inj_succ. change (Zpos m~1) with (2 * Zpos m + 1).
    replace (Z.succ (Zpos (digits2_pos m)) - 1)
      with (Z.succ (Zpos (digits2_pos m) - 1)) by lia.
    rewrite !Z.pow_succ_r by lia. lia.
  - rewrite Pos2Z.inj_succ. change (Zpos m~0) with (2 * Zpos m).
    replace (Z.succ (Zpos (digits2_pos m)) - 1)
      with (Z.succ (Zpos (digits2_pos m) - 1)) by lia.
    rewrite !Z.pow_succ_r by lia. lia.
Qed.

Lemma digits2_unique m k :
  2 ^ (k - 1) <= Zpos m < 2 ^ k → Zpos (digits2_pos m) = k.
Proof.
  intros [Hlo Hhi]. pose proof (digits2_bounds m) as [Hlo' Hhi'].
  destruct (Z.lt_trichotomy (Zpos (digits2_pos m)) k) as [Hlt|[Heq|Hgt]];
    [exfalso|done|exfalso].
  - assert (2 ^ Zpos (digits2_pos m) <= 2 ^ (k - 1))
      by (apply Z.pow_le_mono_r; lia). lia.
  - assert (2 ^ k <= 2 ^ (Zpos (digits2_pos m) - 1))
      by (apply Z.pow_le_mono_r; lia). lia.
Qed.

(** The shape of a valid finite binary64 datum. *)
Lemma is_number_finite s m e :
  is_number (S754_finite s m e) →
  Zpos (digits2_pos m) <= 53 ∧ -1074 <= e <= 971
  ∧ (Zpos (digits2_pos m) = 53 ∨ e = -1074).
Proof.
  unfold is_number, valid_binary, bounded, canonical_mantissa, fexp, emin,
    prec, emax.
  rewrite andb_true_iff, Z.eqb_eq, Z.leb_le. lia.
Qed.

Lemma truncate_integer x n :
  Z_of_number x = Some n → FrameworkEventsInspector.truncate x = Some n.
Proof.
  destruct x as [s|s| |s m e]; simpl; try done.
  destruct (0 <=? e); [done|].
  destruct (Zpos m mod 2 ^ (- e) =? 0); [done|done].
Qed.

Lemma Z_of_number_positive x n :
  Z_of_number x = Some n → 0 < n →
  ∃ m e, x = S754_finite false m e
         ∧ (0 <= e ∧ n = Zpos m * 2 ^ e
            ∨ e < 0 ∧ Zpos m = n * 2 ^ (- e)).
Proof.
  destruct x as [s|s| |s m e]; simpl; try done; [intros [= <-]; lia|].
  assert (Hpow : 0 < 2 ^ (- e) ∨ e >= 0).
  { destruct (Z.lt_ge_cases e 0); [left|right; lia].
    apply Z.pow_pos_nonneg; lia. }
  destruct (Z.leb_spec 0 e) as [He|He].
  - intros [= <-] Hn. assert (0 < 2 ^ e) by (apply Z.pow_pos_nonneg; lia).
    destruct s; simpl in Hn; [lia|]. exists m, e. split; [done|]. left. done.
  - destruct (Z.eqb_spec (Zpos m mod 2 ^ (- e)) 0) as [Hmod|]; [|done].
    intros [= <-] Hn. destruct Hpow as [Hpow|?]; [|lia].
    assert (Hm : Zpos m = 2 ^ (- e) * (Zpos m / 2 ^ (- e)))
      by (apply Z_div_exact_full_2; lia).
    destruct s; simpl in Hn.
    + assert (0 <= Zpos m / 2 ^ (- e)) by (apply Z.div_pos; lia). lia.
    + exists m, e. split; [done|]. right. simpl. lia.
Qed.

Lemma log2_normal a : 2 ^ 52 <= a < 2 ^ 53 → Z.log2 a = 52.
Proof. intros Ha. apply Z.log2_unique; [lia|exact Ha]. Qed.

(** A positive integer below [2^53] has exactly one valid datum. *)
Lemma integer_canonical x n :
  is_number x → Z_of_number x = Some n → 0 < n < 2 ^ 53 →
  x = canonical_integer n.
Proof.
  intros Hx Hn [Hpos Hlt].
  destruct (Z_of_number_positive _ _ Hn Hpos) as (m & e & -> & Hme).
  destruct (is_number_finite _ _ _ Hx) as (Hd & He & Hcanon).
  pose proof (digits2_bounds m) as [Hlo Hhi].
  assert (Hhi' : Zpos m < 2 ^ 53).
  { eapply Z.lt_le_trans; [exact Hhi|]. apply Z.pow_le_mono_r; lia. }
  unfold canonical_integer.
  destruct Hme as [[He0 ->]|[He0 Hm]].
  - destruct Hcanon as [Hd53|?]; [|lia]. rewrite Hd53 in Hlo.
    assert (e = 0).
    { destruct (Z.eq_dec e 0); [done|exfalso].
      assert (2 ^ 1 <= 2 ^ e) by (apply Z.pow_le_mono_r; lia).
      change (2 ^ 1) with 2 in *. change (2 ^ (53 - 1)) with (2 ^ 52) in *.
      change (2 ^ 53) with (2 * 2 ^ 52) in *. nia. }
    subst e. rewrite Z.mul_1_r.
    rewrite (log2_normal (Zpos m)) by (split; [exact Hlo|exact Hhi']).
    by rewrite Z.mul_1_r, Pos2Z.id.
  - assert (Hlog : Z.log2 (n * 2 ^ (- e)) = - e + Z.log2 n)
      by (apply Z.log2_mul_pow2; lia).
    destruct Hcanon as [Hd53| ->].
    + rewrite Hd53 in Hlo. rewrite <- Hm in Hlog.
      rewrite (log2_normal (Zpos m)) in Hlog
        by (split; [exact Hlo|exact Hhi']).
      replace (Z.log2 n - 52) with e by lia.
      replace (52 - Z.log2 n) with (- e) by lia.
      by rewrite <- Hm, Pos2Z.id.
    + exfalso. change (- -1074) with 1074 in Hm.
      assert (2 ^ 53 < 2 ^ 1074) by (apply Z.pow_lt_mono_r; lia). nia.
Qed.

Lemma Z_of_number_zero x : Z_of_number x = Some 0 → ∃ s, x = S754_zero s.
Proof.
  destruct x as [s|s| |s m e]; simpl; try done; [by exists s|].
  destruct (Z.leb_spec 0 e) as [He|He].
  - assert (0 < 2 ^ e) by (apply Z.pow_pos_nonneg; lia).
    destruct s; simpl; intros [= ?]; nia.
  - assert (0 < 2 ^ (- e)) by (apply Z.pow_pos_nonneg; lia).
    destruct (Z.eqb_spec (Zpos m mod 2 ^ (- e)) 0) as [Hmod|]; [|done].
    assert (Hm : Zpos m = 2 ^ (- e) * (Zpos m / 2 ^ (- e)))
      by (apply Z_div_exact_full_2; lia).
    destruct s; simpl; intros [= ?]; nia.
Qed.

(** Comparing an integer-valued number with an integer literal [c]
    whose datum has mantissa [mc] and exponent [ec] compares the
    integers. *)
Lemma lt_integer x n c mc ec :
  is_number x → Z_of_number x = Some n → 0 <= n →
  of_Z c = S754_finite false mc ec →
  -52 <= ec <= 0 → Zpos mc = c * 2 ^ (- ec) → 2 ^ 52 <= Zpos mc < 2 ^ 53 →
  lt x (of_Z c) = (n <? c).
Proof.
  intros Hx Hn Hn0 -> Hec Hmc Hnormal. unfold lt, SFltb.
  assert (HP : 0 < 2 ^ (- ec)) by (apply Z.pow_pos_nonneg; lia).
  assert (Hc : 0 < c) by nia.
  destruct (Z.eq_dec n 0) as [->|Hne].
  { destruct (Z_of_number_zero _ Hn) as [s ->]. simpl.
    by destruct (Z.ltb_spec 0 c); [|lia]. }
  destruct (Z_of_number_positive x n Hn ltac:(lia)) as (m & e & -> & Hme).
  destruct (is_number_finite _ _ _ Hx) as (Hd & He & Hcanon).
  pose proof (digits2_bounds m) as [Hlo Hhi].
  assert (Hhi' : Zpos m < 2 ^ 53).
  { eapply Z.lt_le_trans; [exact Hhi|]. apply Z.pow_le_mono_r; lia. }
  simpl. destruct (Z.compare_spec e ec) as [->|Hlt|Hgt].
  - rewrite Pos.compare_cont_spec. simpl.
    change ((m ?= mc)%positive) with (Zpos m ?= Zpos mc).
    destruct Hme as [[He0 Hm]|[He0 Hm]].
    + assert (ec = 0) as -> by lia. simpl in Hmc. rewrite Z.mul_1_r in Hm.
      destruct (Z.compare_spec (Zpos m) (Zpos mc)), (Z.ltb_spec n c);
        try done; lia.
    + destruct (Z.compare_spec (Zpos m) (Zpos mc)), (Z.ltb_spec n c);
        try done; nia.
  - destruct Hme as [[He0 Hm]|[He0 Hm]]; [lia|].
    assert (HR : 2 ^ (- e) = 2 ^ (- ec) * 2 ^ (ec - e)).
    { rewrite <- Z.pow_add_r by lia. f_equal. lia. }
    assert (2 ^ 1 <= 2 ^ (ec - e)) by (apply Z.pow_le_mono_r; lia).
    change (2 ^ 1) with 2 in *. change (2 ^ 53) with (2 * 2 ^ 52) in *.
    destruct (Z.ltb_spec n c); [done|]. exfalso.
    assert (c * 2 ^ (- ec) * 2 <= n * 2 ^ (- ec) * 2 ^ (ec - e)).
    { apply Z.mul_le_mono_nonneg; nia. }
    nia.
  - destruct Hcanon as [Hd53|?]; [|lia]. rewrite Hd53 in Hlo.
    change (2 ^ (53 - 1)) with (2 ^ 52) in Hlo.
    change (2 ^ 53) with (2 * 2 ^ 52) in *.
    destruct (Z.ltb_spec n c) as [Hnc|]; [exfalso|done].
    destruct Hme as [[He0 Hm]|[He0 Hm]].
    + assert (0 < 2 ^ e) by (apply Z.pow_pos_nonneg; lia).
      destruct (Z.eq_dec ec 0) as [->|].
      * assert (2 ^ 1 <= 2 ^ e) by (apply Z.pow_le_mono_r; lia).
        change (2 ^ 1) with 2 in *. simpl in Hmc. nia.
      * assert (2 ^ 1 <= 2 ^ (- ec)) by (apply Z.pow_le_mono_r; lia).
        change (2 ^ 1) with 2 in *. nia.
    + assert (HR : 2 ^ (- ec) = 2 ^ (- e) * 2 ^ (e - ec)).
      { rewrite <- Z.pow_add_r by lia. f_equal. lia. }
      assert (2 ^ 1 <= 2 ^ (e - ec)) by (apply Z.pow_le_mono_r; lia).
      change (2 ^ 1) with 2 in *.
      assert (0 < 2 ^ (- e)) by (apply Z.pow_pos_nonneg; lia).
      assert ((n + 1) * 2 ^ (- e) * 2 <= c * 2 ^ (- e) * 2 ^ (e - ec)).
      { apply Z.mul_le_mono_nonneg; nia. }
      nia.
Qed.

End Numbers.

(** ** Integers as numbers and their decimal representation *)

Section IntegerToString.
Import Js Spec.
Variables (i : Z) (m : positive) (e : Z).
Hypothesis (Hi : 0 < i) (He : e <= 0) (Hm : Zpos m = i * 2 ^ (- e)).

Lemma compare_scaled_pow10 n :
  compare_scaled (Zpos m) e 0 1 0 n = if 0 <=? n then i ?= 10 ^ n else Gt.
Proof.
  unfold compare_scaled, scaled.
  replace (e - 0) with e by lia. replace (0 - e) with (- e) by lia.
  replace (n - 0) with n by lia. replace (0 - n) with (- n) by lia.
  rewrite (Z.max_r e 0), (Z.max_l (- e) 0) by lia. change (2 ^ 0) with 1.
  assert (0 < 2 ^ (- e)) by (apply Z.pow_pos_nonneg; lia).
  destruct (Z.leb_spec 0 n) as [Hn|Hn].
  - rewrite (Z.max_r (- n) 0), (Z.max_l n 0) by lia. change (10 ^ 0) with 1.
    rewrite Hm, !Z.mul_1_r, Z.mul_1_l, (Z.mul_comm i).
    symmetry. apply Zmult_compare_compat_l. lia.
  - rewrite (Z.max_l (- n) 0), (Z.max_r n 0) by lia. change (10 ^ 0) with 1.
    assert (10 ^ 1 <= 10 ^ (- n)) by (apply Z.pow_le_mono_r; lia).
    apply Z.compare_gt_iff. nia.
Qed.

Lemma decimal_exponent_from_spec fuel n :
  (n <= 0 ∨ 10 ^ (n - 1) <= i) → i < 10 ^ (n + Z.of_nat fuel - 1) →
  10 ^ (decimal_exponent_from fuel (Zpos m) e n - 1) <= i
     < 10 ^ decimal_exponent_from fuel (Zpos m) e n.
Proof.
  revert n. induction fuel as [|fuel IH]; intros n Hlo Hhi.
  - exfalso. rewrite Z.add_0_r in Hhi. destruct Hlo as [Hn|Hlo]; [|lia].
    rewrite Z.pow_neg_r in Hhi by lia. lia.
  - simpl decimal_exponent_from. rewrite compare_scaled_pow10.
    destruct (Z.leb_spec 0 n) as [Hn|Hn].
    + destruct (Z.compare_spec i (10 ^ n)) as [Heq|Hlt|Hgt].
      * apply IH; [right|]. { replace (n + 1 - 1) with n by lia. lia. }
        replace (n + 1 + Z.of_nat fuel - 1) with (n + Z.of_nat (S fuel) - 1)
          by lia. done.
      * split; [|done]. destruct Hlo as [Hn0|Hlo]; [|done].
        assert (n = 0) as -> by lia. simpl. rewrite Z.pow_neg_r; lia.
      * apply IH; [right|]. { replace (n + 1 - 1) with n by lia. lia. }
        replace (n + 1 + Z.of_nat fuel - 1) with (n + Z.of_nat (S fuel) - 1)
          by lia. done.
    + apply IH; [left; lia|].
      replace (n + 1 + Z.of_nat fuel - 1) with (n + Z.of_nat (S fuel) - 1)
        by lia. done.
Qed.

Lemma floor_scaled_integer p :
  0 <= p → floor_scaled (Zpos m) e p = i / 10 ^ p.
Proof.
  intros Hp. unfold floor_scaled, scaled.
  replace (e - 0) with e by lia. replace (0 - e) with (- e) by lia.
  replace (p - 0) with p by lia. replace (0 - p) with (- p) by lia.
  rewrite (Z.max_r e 0), (Z.max_r (- p) 0), (Z.max_l (- e) 0), (Z.max_l p 0)
    by lia.
  change (2 ^ 0) with 1. change (10 ^ 0) with 1.
  rewrite !Z.mul_1_r, Z.mul_1_l, Hm.
  assert (0 < 2 ^ (- e)) by (apply Z.pow_pos_nonneg; lia).
  assert (0 < 10 ^ p) by (apply Z.pow_pos_nonneg; lia).
  rewrite (Z.mul_comm i), Z.div_mul_cancel_l by lia. done.
Qed.

Lemma rounds_to_integer s p :
  0 <= p → 0 <= s → rounds_to m e s p = (s * 10 ^ p =? i).
Proof.
  intros Hp Hs. unfold rounds_to, compare_scaled, scaled.
  replace (e - 2 - 0) with (e - 2) by lia.
  replace (0 - (e - 2)) with (- (e - 2)) by lia.
  replace (p - 0) with p by lia. replace (0 - p) with (- p) by lia.
  rewrite (Z.max_r (e - 2) 0), (Z.max_r (- p) 0), (Z.max_l (- (e - 2)) 0),
    (Z.max_l p 0) by lia.
  change (2 ^ 0) with 1. change (10 ^ 0) with 1. rewrite !Z.mul_1_r.
  replace (- (e - 2)) with (2 + - e) by lia.
  rewrite Z.pow_add_r by lia. change (2 ^ 2) with 4.
  assert (HP : 0 < 2 ^ (- e)) by (apply Z.pow_pos_nonneg; lia).
  assert (H10 : 0 < 10 ^ p) by (apply Z.pow_pos_nonneg; lia).
  rewrite Hm. set (t := 2 ^ (- e)) in *. set (v := s * 10 ^ p).
  replace (s * (4 * t) * 10 ^ p) with (v * (4 * t)) by (unfold v; ring).
  replace (4 * (i * t)) with (i * (4 * t)) by ring.
  set (c := if _ && _ then 1 else 2).
  assert (Hc : 1 <= c <= 2) by (unfold c; by destruct (_ && _)).
  clearbody c t v.
  destruct (Z.eqb_spec v i) as [->|Hne].
  - destruct (Z.compare_spec (i * (4 * t) - c) (i * (4 * t))),
      (Z.compare_spec (i * (4 * t)) (i * (4 * t) + 2)); lia || done.
  - destruct (Z.compare_spec (i * (4 * t) - c) (v * (4 * t))),
      (Z.compare_spec (v * (4 * t)) (i * (4 * t) + 2)); try done; try nia.
Qed.

Lemma shortest_from_S fuel nv k :
  rounds_to m e (floor_scaled (Zpos m) e (nv - k) + 1) (nv - k) = false →
  shortest_from (S fuel) m e nv k =
    if rounds_to m e (floor_scaled (Zpos m) e (nv - k)) (nv - k)
    then (floor_scaled (Zpos m) e (nv - k), nv, k)
    else shortest_from fuel m e nv (k + 1).
Proof.
  intros Habove. simpl. rewrite Habove.
  by destruct (rounds_to m e (floor_scaled (Zpos m) e (nv - k)) (nv - k)).
Qed.

Lemma shortest_from_integer fuel d k :
  1 <= k <= d → d - k < Z.of_nat fuel →
  ∃ s k', shortest_from fuel m e d k = (s, d, k')
          ∧ k <= k' <= d ∧ 0 < s ∧ s * 10 ^ (d - k') = i.
Proof.
  revert k. induction fuel as [|fuel IH]; intros k Hk Hfuel; [lia|].
  assert (H10 : 0 < 10 ^ (d - k)) by (apply Z.pow_pos_nonneg; lia).
  pose proof (Z.mul_div_le i (10 ^ (d - k)) H10) as Hle.
  pose proof (Z.mul_succ_div_gt i (10 ^ (d - k)) H10) as Hgt.
  assert (Hq : 0 <= i / 10 ^ (d - k)) by (apply Z.div_pos; lia).
  rewrite shortest_from_S; rewrite !floor_scaled_integer by lia;
    rewrite !rounds_to_integer by lia.
  - destruct (Z.eqb_spec (i / 10 ^ (d - k) * 10 ^ (d - k)) i) as [Heq|Hne].
    + exists (i / 10 ^ (d - k)), k. split; [done|]. split; [lia|].
      split; [nia|done].
    + assert (k < d).
      { destruct (Z.eq_dec k d) as [->|]; [|lia]. exfalso. apply Hne.
        rewrite Z.sub_diag. change (10 ^ 0) with 1.
        by rewrite Z.div_1_r, Z.mul_1_r. }
      destruct (IH (k + 1)) as (s & k' & Hs & Hk' & Hs0 & Hsi); [lia..|].
      exists s, k'. split; [done|]. split; [lia|done].
  - apply Z.eqb_neq. lia.
Qed.

(** For a number with [l + 1] binary digits, the search for the decimal
    exponent starts at or below it and reaches it within its four
    steps. *)
Lemma decimal_exponent_estimate :
  Forall (λ l, (l * 30103 / 100000 - 1 <= 0
                ∨ 10 ^ (l * 30103 / 100000 - 1 - 1) <= 2 ^ l)
               ∧ 2 ^ (l + 1) <= 10 ^ (l * 30103 / 100000 - 1 + 3))
         (seqZ 0 53).
Proof. refine (bool_decide_unpack _ _). vm_compute. exact I. Qed.

Hypothesis (Hi53 : i < 2 ^ 53) (Hd : Zpos (digits2_pos m) = 53).

Lemma decimal_exponent_integer :
  10 ^ (decimal_exponent m e - 1) <= i < 10 ^ decimal_exponent m e.
Proof.
  unfold decimal_exponent. rewrite Hd.
  pose proof (digits2_bounds m) as [Hlo Hhi]. rewrite Hd, Hm in Hlo, Hhi.
  change (2 ^ (53 - 1)) with (2 ^ 52) in Hlo.
  assert (Hpos : 0 < 2 ^ (- e)) by (apply Z.pow_pos_nonneg; lia).
  assert (He52 : -52 <= e).
  { destruct (Z.le_gt_cases (-52) e); [done|exfalso].
    assert (2 ^ 53 <= 2 ^ (- e)) by (apply Z.pow_le_mono_r; lia). nia. }
  assert (Hbin : 2 ^ (52 + e) <= i < 2 ^ (52 + e + 1)).
  { assert (2 ^ 52 = 2 ^ (52 + e) * 2 ^ (- e)).
    { rewrite <- Z.pow_add_r by lia. f_equal. lia. }
    assert (2 ^ 53 = 2 ^ (52 + e + 1) * 2 ^ (- e)).
    { rewrite <- Z.pow_add_r by lia. f_equal. lia. }
    split; nia. }
  replace (53 + e - 1) with (52 + e) by lia.
  pose proof (proj1 (Forall_forall _ _) decimal_exponent_estimate (52 + e))
    as Hest.
  destruct Hest as [Hstart Hend]; [apply elem_of_seqZ; lia|].
  set (start := (52 + e) * 30103 / 100000 - 1) in *. clearbody start.
  apply decimal_exponent_from_spec.
  - destruct Hstart as [?|?]; [by left|right; lia].
  - change (Z.of_nat 4) with 4.
    replace (start + 4 - 1) with (start + 3) by lia. lia.
Qed.

Lemma positive_toString_integer : positive_toString m e = decimal i.
Proof.
  unfold positive_toString.
  pose proof decimal_exponent_integer as [Hlo Hhi].
  set (d := decimal_exponent m e) in *.
  assert (Hd1 : 1 <= d).
  { destruct (Z.le_gt_cases 1 d); [done|exfalso].
    assert (10 ^ d <= 10 ^ 0) by (apply Z.pow_le_mono_r; lia).
    change (10 ^ 0) with 1 in *.
    destruct (Z.lt_ge_cases d 0); [rewrite Z.pow_neg_r in Hhi; lia|lia]. }
  assert (Hd16 : d <= 16).
  { destruct (Z.le_gt_cases d 16); [done|exfalso].
    assert (10 ^ 16 <= 10 ^ (d - 1)) by (apply Z.pow_le_mono_r; lia).
    assert (2 ^ 53 < 10 ^ 16) by done. lia. }
  destruct (shortest_from_integer 17 d 1) as (s & k & -> & Hk & Hs & Hsi);
    [lia..|].
  destruct (Z.leb_spec (-5) d), (Z.leb_spec d 21); try lia. simpl andb.
  destruct (Z.leb_spec k d); [|lia].
  unfold zeros. rewrite <- decimal_pow10 by done.
  by rewrite Z2Nat.id, Hsi by lia.
Qed.

End IntegerToString.

Section IntegerLiteral.
Import Js Spec.

Lemma iter_xO p k : Zpos (Pos.iter xO p k) = Zpos p * 2 ^ Zpos k.
Proof.
  induction k as [|k IH] using Pos.peano_ind.
  - simpl. lia.
  - rewrite Pos.iter_succ, Pos2Z.inj_succ, Z.pow_succ_r by lia.
    change (Zpos (Pos.iter xO p k)~0) with (2 * Zpos (Pos.iter xO p k)).
    rewrite IH. ring.
Qed.

Lemma shr_fexp_exact (mz : positive) ez l :
  Zpos (digits2_pos mz) = 53 → -1074 <= ez →
  shr_fexp prec emax (Zpos mz) ez l = (shr_record_of_loc (Zpos mz) l, ez).
Proof.
  intros Hd He. unfold shr_fexp, fexp, emin, prec, emax. simpl Zdigits2.
  rewrite Hd.
  by replace (Z.max (53 + ez - 53) (3 - 1024 - 53) - ez) with 0 by lia.
Qed.

Lemma binary_round_aux_exact (mz : positive) ez :
  Zpos (digits2_pos mz) = 53 → -1074 <= ez <= 971 →
  binary_round_aux prec emax false (Zpos mz) ez loc_Exact
  = S754_finite false mz ez.
Proof.
  intros Hd He. unfold binary_round_aux.
  rewrite shr_fexp_exact by (done || lia). simpl.
  rewrite shr_fexp_exact by (done || lia). simpl.
  destruct (Z.leb_spec ez (emax - prec)) as [|Hgt]; [done|].
  unfold emax, prec in Hgt. lia.
Qed.

(** The literal of a positive integer below [2^53] is its exact datum. *)
Lemma of_Z_integer i : 0 < i < 2 ^ 53 → of_Z i = canonical_integer i.
Proof.
  intros [Hi0 Hi53]. destruct i as [|p|p]; try lia.
  unfold of_Z, binary_normalize, binary_round, canonical_integer.
  pose proof (digits2_bounds p) as [Hlo Hhi].
  set (d := Zpos (digits2_pos p)) in *.
  assert (Hlog : Z.log2 (Zpos p) = d - 1).
  { apply Z.log2_unique; [lia|]. by replace (Z.succ (d - 1)) with d by lia. }
  assert (Hd53 : d <= 53).
  { destruct (Z.le_gt_cases d 53); [done|exfalso].
    assert (2 ^ 53 <= 2 ^ (d - 1)) by (apply Z.pow_le_mono_r; lia). lia. }
  rewrite Hlog. unfold fexp, emin, prec, emax.
  replace (Z.max (d + 0 - 53) (3 - 1024 - 53)) with (d - 53) by lia.
  replace (52 - (d - 1)) with (53 - d) by lia.
  replace (d - 1 - 52) with (d - 53) by lia.
  assert (Hnormal : 2 ^ 52 <= Zpos p * 2 ^ (53 - d) < 2 ^ 53).
  { assert (2 ^ 52 = 2 ^ (d - 1) * 2 ^ (53 - d)).
    { rewrite <- Z.pow_add_r by lia. f_equal. lia. }
    assert (2 ^ 53 = 2 ^ d * 2 ^ (53 - d)).
    { rewrite <- Z.pow_add_r by lia. f_equal. lia. }
    assert (0 < 2 ^ (53 - d)) by (apply Z.pow_pos_nonneg; lia).
    split; nia. }
  unfold shl_align. rewrite Z.sub_0_r.
  destruct (d - 53) as [|k|k] eqn:Hk; try lia.
  - replace (53 - d) with 0 in * by lia. rewrite Z.mul_1_r in *.
    rewrite Pos2Z.id.
    apply binary_round_aux_exact; [|lia].
    apply digits2_unique. exact Hnormal.
  - replace (53 - d) with (Zpos k) in * by lia.
    rewrite <- iter_xO in *. rewrite Pos2Z.id.
    apply binary_round_aux_exact; [|lia].
    apply digits2_unique. exact Hnormal.
Qed.

(** An integer from 0 up to [2^53] prints as its decimal digits. *)
Lemma toString_integer i :
  0 <= i < 2 ^ 53 → toString (of_Z i) = decimal i.
Proof.
  intros [Hi0 Hi53]. destruct (Z.eq_dec i 0) as [->|Hne]; [done|].
  rewrite of_Z_integer by lia. unfold canonical_integer. simpl toString.
  rewrite append_empty.
  pose proof (Z.log2_spec i ltac:(lia)) as [Hlo Hhi].
  pose proof (Z.log2_nonneg i) as Hl0.
  assert (Hl52 : Z.log2 i <= 52).
  { destruct (Z.le_gt_cases (Z.log2 i) 52); [done|exfalso].
    assert (2 ^ 53 <= 2 ^ Z.log2 i) by (apply Z.pow_le_mono_r; lia). lia. }
  assert (Hnormal : 2 ^ 52 <= i * 2 ^ (52 - Z.log2 i) < 2 ^ 53).
  { assert (2 ^ 52 = 2 ^ Z.log2 i * 2 ^ (52 - Z.log2 i)).
    { rewrite <- Z.pow_add_r by lia. f_equal. lia. }
    assert (2 ^ 53 = 2 ^ Z.succ (Z.log2 i) * 2 ^ (52 - Z.log2 i)).
    { rewrite <- Z.pow_add_r by lia. f_equal. lia. }
    assert (0 < 2 ^ (52 - Z.log2 i)) by (apply Z.pow_pos_nonneg; lia).
    split; nia. }
  assert (Hm : Zpos (Z.to_pos (i * 2 ^ (52 - Z.log2 i)))
               = i * 2 ^ (- (Z.log2 i - 52))).
  { rewrite Z2Pos.id by lia. do 2 f_equal. lia. }
  apply (positive_toString_integer i _ (Z.log2 i - 52)); try lia; try done.
  apply digits2_unique. rewrite Z2Pos.id by lia. exact Hnormal.
Qed.

(** A number with an integer value from 0 up to [2^53] prints as the
    decimal digits of that integer. *)
Lemma toString_integer_number x n :
  is_number x → Z_of_number x = Some n → 0 <= n < 2 ^ 53 →
  toString x = decimal n.
Proof.
  intros Hx Hn [Hn0 Hn53]. destruct (Z.eq_dec n 0) as [->|Hne].
  - by destruct (Z_of_number_zero _ Hn) as [s ->].
  - rewrite (integer_canonical x n), <- of_Z_integer by (done || lia).
    apply toString_integer. lia.
Qed.

End IntegerLiteral.

(** ** The timeline entries (C3) *)

Section Timeline.
Import ClientTypes FrameworkEventsInspector.
Variables (theme : Theme) (frameworkEventSeparator : string).
Implicit Types (filtered : list FrameworkEvent).

(** C3: the timeline has one entry per filtered event, in order; entry
    [i] carries the event's timestamp, the name of its type, the colour
    of its thread, and the decimal representation of [i] as its key.
    An array has fewer than [2^32] elements. *)
Theorem timeline_time_spec filtered :
  Z.of_nat (length filtered) < 2 ^ 32 →
  length (timeline_time theme frameworkEventSeparator filtered)
  = length filtered
  ∧ ∀ (i : nat) event,
      filtered !! i = Some event →
      timeline_time theme frameworkEventSeparator filtered !! i
      = Some {| moment := timestamp event;
                display := eventTypeToName frameworkEventSeparator
                             (type event);
                color := threadToColor theme (thread event);
                key := Js.decimal (Z.of_nat i) |}.
Proof.
  intros Hlen. unfold timeline_time. split.
  - apply length_imap.
  - intros i event Hi. rewrite list_lookup_imap, Hi. simpl.
    apply lookup_lt_Some in Hi.
    rewrite toString_integer; [done|].
    assert (2 ^ 32 < 2 ^ 53) by done. lia.
Qed.

End Timeline.

(** ** Division of normal numbers *)

Section Division.
Import Js.
Implicit Types (m q e : Z) (l : location) (mx my : positive).

Lemma shr_m_of_loc m l : shr_m (shr_record_of_loc m l) = m.
Proof. by destruct l as [|[]]. Qed.

Lemma shr_m_shr_1 mrs :
  2 <= shr_m mrs → shr_m (shr_1 mrs) = shr_m mrs / 2.
Proof.
  destruct mrs as [[|[p|p|]|p] r t]; simpl; try lia; intros _.
  - change (Zpos p~1) with (1 + 2 * Zpos p).
    rewrite Z.mul_comm, Z.div_add by lia. done.
  - change (Zpos p~0) with (2 * Zpos p).
    by rewrite Z.mul_comm, Z.div_mul by lia.
Qed.

(** In the normal range, [shr_fexp] drops at most one bit and leaves a
    53-bit mantissa. *)
Lemma shr_fexp_normal m e l :
  2 ^ 52 <= m < 2 ^ 54 → -1074 <= e →
  ∃ mrs e', shr_fexp prec emax m e l = (mrs, e')
            ∧ 2 ^ 52 <= shr_m mrs < 2 ^ 53
            ∧ (e' = e ∧ shr_m mrs = m
               ∨ e' = e + 1 ∧ shr_m mrs = m / 2 ∧ 2 ^ 53 <= m).
Proof.
  intros [Hlo Hhi] He. destruct m as [|p|p]; try (simpl in Hlo; lia).
  unfold shr_fexp, fexp, emin, prec, emax. simpl Zdigits2.
  destruct (Z.lt_ge_cases (Zpos p) (2 ^ 53)) as [H53|H53].
  - rewrite (digits2_unique p 53) by (split; [exact Hlo|exact H53]).
    replace (Z.max (53 + e - 53) (3 - 1024 - 53) - e) with 0 by lia.
    eexists _, _. split; [reflexivity|]. rewrite shr_m_of_loc. lia.
  - rewrite (digits2_unique p 54) by (split; [exact H53|exact Hhi]).
    replace (Z.max (54 + e - 53) (3 - 1024 - 53) - e) with 1 by lia.
    eexists _, _. split; [reflexivity|]. simpl iter_pos.
    rewrite shr_m_shr_1; rewrite shr_m_of_loc; [|lia].
    change (2 ^ 54) with (2 * 2 ^ 53) in Hhi.
    change (2 ^ 53) with (2 * 2 ^ 52) in *.
    split; [|right; lia]. split.
    + apply Z.div_le_lower_bound; lia.
    + apply Z.div_lt_upper_bound; lia.
Qed.

Lemma round_nearest_even_bounds m l :
  m <= round_nearest_even m l <= m + 1.
Proof. destruct l as [|[]]; simpl; try destruct (Z.even m); lia. Qed.

(** Rounding a 53- or 54-bit mantissa [q] at exponent [e]: the result is
    finite, its exponent is at most [e + 2], and in units of [2^e] it
    is between [q - 1] and [q + 2]. *)
Lemma binary_round_aux_normal q e l :
  2 ^ 52 <= q < 2 ^ 54 → -1074 <= e → e + 2 <= 971 →
  ∃ (m : positive) e',
    binary_round_aux prec emax false q e l = S754_finite false m e'
    ∧ e <= e' <= e + 2 ∧ Zpos m < 2 ^ 53
    ∧ q - 1 <= Zpos m * 2 ^ (e' - e) <= q + 2.
Proof.
  intros Hq He Hmax. unfold binary_round_aux.
  destruct (shr_fexp_normal q e l Hq He) as (mrs & e1 & -> & Hm1 & Hs1).
  pose proof (round_nearest_even_bounds (shr_m mrs) (loc_of_shr_record mrs))
    as Hround.
  destruct (shr_fexp_normal
              (round_nearest_even (shr_m mrs) (loc_of_shr_record mrs))
              e1 loc_Exact) as (mrs2 & e2 & -> & Hm2 & Hs2).
  { change (2 ^ 54) with (2 * 2 ^ 53). lia. }
  { lia. }
  destruct (shr_m mrs2) as [|m|m] eqn:Hm; try (simpl in Hm2; lia).
  destruct (Z.leb_spec e2 (emax - prec)) as [_|Hgt];
    [|unfold emax, prec in Hgt; lia].
  exists m, e2. split; [done|].
  change (2 ^ 52) with 4503599627370496 in *.
  change (2 ^ 53) with 9007199254740992 in *.
  change (2 ^ 54) with 18014398509481984 in *.
  set (rounded := round_nearest_even _ _) in *. clearbody rounded.
  pose proof (Z.div_mod q 2 ltac:(lia)) as Hq_half.
  pose proof (Z.mod_pos_bound q 2 ltac:(lia)) as Hq_bit.
  pose proof (Z.div_mod rounded 2 ltac:(lia)) as Hr_half.
  pose proof (Z.mod_pos_bound rounded 2 ltac:(lia)) as Hr_bit.
  destruct Hs1 as [[-> Hq1]|(-> & Hq1 & Hq53)],
           Hs2 as [[-> Hq2]|(-> & Hq2 & Hq54)].
  - rewrite Z.sub_diag. change (2 ^ 0) with 1. lia.
  - replace (e + 1 - e) with 1 by lia. change (2 ^ 1) with 2. lia.
  - replace (e + 1 - e) with 1 by lia. change (2 ^ 1) with 2. lia.
  - replace (e + 1 + 1 - e) with 2 by lia. change (2 ^ 2) with 4. lia.
Qed.

Lemma SFdiv_core_normal mx ex my ey :
  Zpos (digits2_pos mx) = 53 → Zpos (digits2_pos my) = 53 →
  -1074 <= ex - ey - 53 →
  ∃ l, SFdiv_core_binary prec emax (Zpos mx) ex (Zpos my) ey
       = (Zpos mx * 2 ^ 53 / Zpos my, ex - ey - 53, l)
       ∧ 2 ^ 52 <= Zpos mx * 2 ^ 53 / Zpos my < 2 ^ 54.
Proof.
  intros Hdx Hdy He. unfold SFdiv_core_binary, fexp, emin, prec, emax.
  simpl Zdigits2. rewrite Hdx, Hdy.
  replace (Z.min (Z.max (53 + ex - (53 + ey) - 53) (3 - 1024 - 53)) (ex - ey))
    with (ex - ey - 53) by lia.
  replace (ex - ey - (ex - ey - 53)) with 53 by lia.
  rewrite Z.shiftl_mul_pow2 by lia. unfold Z.div.
  pose proof (Z_div_mod (Zpos mx * 2 ^ 53) (Zpos my) ltac:(lia)) as Hdiv.
  destruct (Z.div_eucl (Zpos mx * 2 ^ 53) (Zpos my)) as [q r].
  destruct Hdiv as [Hqr Hr]. eexists. split; [reflexivity|]. simpl fst.
  pose proof (digits2_bounds mx) as Hx. pose proof (digits2_bounds my) as Hy.
  rewrite Hdx in Hx. rewrite Hdy in Hy.
  change (2 ^ (53 - 1)) with (2 ^ 52) in *.
  change (2 ^ 54) with (4 * 2 ^ 52).
  change (2 ^ 53) with (2 * 2 ^ 52) in *.
  assert (0 < 2 ^ 52) by done. split; nia.
Qed.

(** The quotient of two normal numbers, away from underflow and
    overflow: it is finite, its exponent is at most two above
    [ex - ey - 53], and in units of [2^(ex - ey - 53)] it is within 2
    of the integer quotient of the mantissas. *)
Lemma div_normal mx ex my ey :
  Zpos (digits2_pos mx) = 53 → Zpos (digits2_pos my) = 53 →
  -1074 <= ex - ey - 53 → ex - ey - 51 <= 971 →
  ∃ (m : positive) e,
    div (S754_finite false mx ex) (S754_finite false my ey)
    = S754_finite false m e
    ∧ ex - ey - 53 <= e <= ex - ey - 51 ∧ Zpos m < 2 ^ 53
    ∧ Zpos mx * 2 ^ 53 / Zpos my - 1
      <= Zpos m * 2 ^ (e - (ex - ey - 53))
      <= Zpos mx * 2 ^ 53 / Zpos my + 2.
Proof.
  intros Hdx Hdy Hmin Hmax. unfold div, SFdiv.
  destruct (SFdiv_core_normal mx ex my ey Hdx Hdy Hmin) as (l & -> & Hq).
  destruct (binary_round_aux_normal _ (ex - ey - 53) l Hq Hmin ltac:(lia))
    as (m & e & Hr & He & Hm & Hv).
  exists m, e. simpl xorb. rewrite Hr. split; [done|].
  split; [lia|]. split; [done|exact Hv].
Qed.

End Division.

(** ** The timestamp of an event (C6) *)

Section Timestamp.
Import Js Spec FrameworkEventsInspector.
Variable host : Host.
Implicit Types (timestamp : number) (n : Z).

(** Time zone offsets are whole seconds. *)
Hypothesis whole_seconds : ∀ t, localTZA host t mod 1000 = 0.

Lemma getMilliseconds_valid n :
  getMilliseconds host (Some n) = of_Z (n mod 1000).
Proof.
  unfold getMilliseconds. f_equal.
  by rewrite Z.add_mod, whole_seconds, Z.add_0_r, Z.mod_mod.
Qed.

(** Whatever the timestamp, the digits after the dot are those of the
    millisecond of its integer part. *)
Lemma formatTimestamp_truncates timestamp s :
  formatTimestamp host timestamp = Normal s →
  ∃ n time, truncate timestamp = Some n
            ∧ s = time ++ "." ++ three_digits (n mod 1000).
Proof.
  unfold formatTimestamp, newDate.
  destruct (truncate timestamp) as [n|]; [|done].
  destruct (Z.abs n <=? 8640000000000000); [|done].
  simpl DateTimeFormat_format. cbv iota beta zeta.
  rewrite getMilliseconds_valid. intros [= <-].
  exists n, (formatTime host n). split; [done|].
  pose proof (Z.mod_pos_bound n 1000 ltac:(lia)) as Hmod.
  rewrite toString_integer by (assert (1000 < 2 ^ 53) by done; lia).
  by rewrite padStart_decimal.
Qed.

(** C6: for a timestamp that is an integer number [n] of milliseconds,
    the formatted string, when there is one, is the host's time of day
    followed by a dot and the three digits of [n mod 1000]; there is
    one whenever [n] is within the range of valid dates. *)
Theorem formatTimestamp_spec timestamp n :
  Z_of_number timestamp = Some n →
  (Z.abs n <= 8640000000000000 →
   formatTimestamp host timestamp
   = Normal (formatTime host n ++ "." ++ three_digits (n mod 1000)))
  ∧ (∀ s, formatTimestamp host timestamp = Normal s →
          ∃ time, s = time ++ "." ++ three_digits (n mod 1000))
  ∧ (8640000000000000 < Z.abs n →
     formatTimestamp host timestamp = Throw "RangeError").
Proof.
  intros Hn.
  assert (Hms : padStart 3 "0" (toString (of_Z (n mod 1000)))
                = three_digits (n mod 1000)).
  { pose proof (Z.mod_pos_bound n 1000 ltac:(lia)) as Hmod.
    rewrite toString_integer by (assert (1000 < 2 ^ 53) by done; lia).
    by apply padStart_decimal. }
  unfold formatTimestamp, newDate. rewrite (truncate_integer _ _ Hn).
  destruct (Z.leb_spec (Z.abs n) 8640000000000000) as [Hle|Hgt].
  - simpl DateTimeFormat_format. cbv iota beta zeta.
    rewrite getMilliseconds_valid, Hms. split_and!; [done| |lia].
    intros s [= <-]. by exists (formatTime host n).
  - split_and!; [lia|done|done].
Qed.

End Timestamp.

(** ** The duration of an event (C2) *)

Section Duration.
Import Js Spec FrameworkEventsInspector.
Implicit Types (x q : number) (n k : Z).

(** [round_half_up_scaled m e 2] is the integer nearest to
    [100 * m * 2^e], ties going up. *)
Lemma round_half_up_scaled_spec (m : positive) e :
  let k := round_half_up_scaled m e 2 in
  (0 <= e → k = 100 * Zpos m * 2 ^ e)
  ∧ (e < 0 →
     (2 * k - 1) * 2 ^ (- e) <= 200 * Zpos m < (2 * k + 1) * 2 ^ (- e)).
Proof.
  unfold round_half_up_scaled. change (10 ^ Z.of_nat 2) with 100.
  destruct (Z.leb_spec 0 e) as [He|He]; [split; [intros _|]; lia|].
  split; [lia|]. intros _.
  replace (1 - e) with (Z.succ (- e)) by lia.
  rewrite Z.pow_succ_r by lia.
  assert (HP : 0 < 2 ^ (- e)) by (apply Z.pow_pos_nonneg; lia).
  pose proof (Z_div_mod (2 * (Zpos m * 100) + 2 ^ (- e)) (2 * 2 ^ (- e))
                ltac:(lia)) as Hdiv.
  unfold Z.div.
  destruct (Z.div_eucl (2 * (Zpos m * 100) + 2 ^ (- e)) (2 * 2 ^ (- e)))
    as [k r].
  simpl fst. lia.
Qed.

Lemma round_half_up_scaled_nonneg (m : positive) e :
  0 <= round_half_up_scaled m e 2.
Proof.
  unfold round_half_up_scaled. change (10 ^ Z.of_nat 2) with 100.
  destruct (Z.leb_spec 0 e) as [He|He].
  - assert (0 < 2 ^ e) by (apply Z.pow_pos_nonneg; lia). nia.
  - assert (0 < 2 ^ (- e)) by (apply Z.pow_pos_nonneg; lia).
    assert (0 < 2 ^ (1 - e)) by (apply Z.pow_pos_nonneg; lia).
    apply Z.div_pos; lia.
Qed.

Lemma binary_round_aux_sign s m e l :
  match binary_round_aux prec emax s m e l with
  | S754_zero s' | S754_infinity s' | S754_finite s' _ _ => s' = s
  | S754_nan => True
  end.
Proof.
  unfold binary_round_aux.
  destruct (shr_fexp prec emax m e l) as [mrs e1].
  destruct (shr_fexp prec emax _ e1 loc_Exact) as [mrs2 e2].
  destruct (shr_m mrs2); [done| |done].
  by destruct (e2 <=? emax - prec).
Qed.

(** Below [10^21], [toFixed(2)] of a non-negative number writes its
    hundredths with two decimal places. *)
Lemma toFixed_below_1e21 q :
  below_1e21 q = true →
  match q with S754_finite s _ _ => s = false | _ => True end →
  toFixed q 2 = two_decimals (hundredths q).
Proof.
  destruct q as [s|s| |s m e]; try done. simpl.
  destruct (compare_scaled (Zpos m) e 0 1 0 21); try done.
  intros _ ->. rewrite append_empty.
  apply insert_point_decimal, round_half_up_scaled_nonneg.
Qed.

(** A valid number with an integer value from 1 to [2^102] is normal;
    its exponent is bounded by the size of the integer. *)
Lemma integer_normal x n (b : Z) :
  is_number x → Z_of_number x = Some n → 0 < n < 2 ^ b → 0 <= b →
  ∃ (m : positive) e, x = S754_finite false m e
                      ∧ Zpos (digits2_pos m) = 53 ∧ -52 <= e <= b - 53
                      ∧ (0 <= e ∧ n = Zpos m * 2 ^ e
                         ∨ e < 0 ∧ Zpos m = n * 2 ^ (- e)).
Proof.
  intros Hx Hn [Hn0 Hnb] Hb.
  destruct (Z_of_number_positive x n Hn Hn0) as (m & e & -> & Hme).
  destruct (is_number_finite _ _ _ Hx) as (Hd & He & Hcanon).
  pose proof (digits2_bounds m) as [Hlo Hhi].
  assert (Hhi' : Zpos m < 2 ^ 53).
  { eapply Z.lt_le_trans; [exact Hhi|]. apply Z.pow_le_mono_r; lia. }
  exists m, e. split; [done|].
  assert (He52 : -52 <= e).
  { destruct Hme as [[He0 Hm]|[He0 Hm]]; [lia|].
    destruct (Z.le_gt_cases (-52) e); [done|exfalso].
    assert (2 ^ 53 <= 2 ^ (- e)) by (apply Z.pow_le_mono_r; lia). nia. }
  destruct Hcanon as [Hd53|?]; [|lia]. split; [done|].
  split; [|exact Hme]. split; [done|].
  rewrite Hd53 in Hlo. change (2 ^ (53 - 1)) with (2 ^ 52) in Hlo.
  destruct (Z.le_gt_cases e (b - 53)) as [|Hgt]; [done|exfalso].
  destruct Hme as [[He0 Hm]|[He0 Hm]].
  - assert (Hpow : 2 ^ (52 + e) = 2 ^ 52 * 2 ^ e)
      by (apply Z.pow_add_r; lia).
    assert (2 ^ b <= 2 ^ (52 + e)) by (apply Z.pow_le_mono_r; lia).
    assert (0 < 2 ^ e) by (apply Z.pow_pos_nonneg; lia). nia.
  - assert (Hpow : 2 ^ b * 2 ^ (- e) = 2 ^ (b - e))
      by (by rewrite <- Z.pow_add_r by lia).
    assert (2 ^ (b - e) <= 2 ^ 52) by (apply Z.pow_le_mono_r; lia).
    assert (0 < 2 ^ (- e)) by (apply Z.pow_pos_nonneg; lia). nia.
Qed.

(** The quotient of a positive integer below [2^b] by a normal divisor
    [my * 2^ey] is non-negative and below [10^21] when
    [b - ey <= 119]. *)
Lemma div_integer_below_1e21 x n (b : Z) (my : positive) ey :
  is_number x → Z_of_number x = Some n → 0 < n < 2 ^ b →
  Zpos (digits2_pos my) = 53 → -60 <= ey <= 0 → 0 <= b → b - ey <= 119 →
  below_1e21 (div x (S754_finite false my ey)) = true
  ∧ match div x (S754_finite false my ey) with
    | S754_finite s _ _ => s = false
    | _ => True
    end.
Proof.
  intros Hx Hn Hnb Hdy Hey Hb Hbey.
  destruct (integer_normal x n b Hx Hn Hnb Hb)
    as (mx & ex & -> & Hdx & Hex & _).
  destruct (div_normal mx ex my ey Hdx Hdy ltac:(lia) ltac:(lia))
    as (m & e & -> & He & Hm & _).
  split; [|done]. unfold below_1e21, compare_scaled, scaled.
  change (Z.max (0 - 21) 0) with 0. change (Z.max (21 - 0) 0) with 21.
  rewrite !Z.sub_0_r, Z.sub_0_l. change (10 ^ 0) with 1.
  assert (H2 : 2 ^ Z.max e 0 <= 2 ^ 15) by (apply Z.pow_le_mono_r; lia).
  assert (H2' : 0 < 2 ^ Z.max e 0) by (apply Z.pow_pos_nonneg; lia).
  assert (H3 : 0 < 2 ^ Z.max (- e) 0) by (apply Z.pow_pos_nonneg; lia).
  assert (Hlt : Zpos m * 2 ^ Z.max e 0 * 1 < 1 * 2 ^ Z.max (- e) 0 * 10 ^ 21).
  { assert (Zpos m * 2 ^ Z.max e 0 < 2 ^ 53 * 2 ^ 15) by nia.
    assert (2 ^ 53 * 2 ^ 15 < 10 ^ 21) by done.
    assert (10 ^ 21 <= 2 ^ Z.max (- e) 0 * 10 ^ 21) by nia. lia. }
  by apply Z.compare_lt_iff in Hlt as ->.
Qed.

(** The hundredths of the binary64 quotient of a positive integer [n]
    below [2^b] by an integer [c] with datum [my * 2^ey] are within one
    hundredth of [n / c], when [b - ey <= 97]. *)
Lemma hundredths_accurate x n c (b : Z) (my : positive) ey :
  is_number x → Z_of_number x = Some n → 0 < n < 2 ^ b →
  Zpos (digits2_pos my) = 53 → -60 <= ey <= 0 → Zpos my = c * 2 ^ (- ey) →
  0 <= b → b - ey <= 97 →
  within_a_hundredth (hundredths (div x (S754_finite false my ey))) n c.
Proof.
  intros Hx Hn Hnb Hdy Hey Hmy Hb Hbey.
  destruct (integer_normal x n b Hx Hn Hnb Hb)
    as (mx & ex & -> & Hdx & Hex & Hmx).
  destruct (div_normal mx ex my ey Hdx Hdy ltac:(lia) ltac:(lia))
    as (m & e & -> & He & Hm & Hlo & Hhi).
  unfold within_a_hundredth, hundredths.
  destruct (round_half_up_scaled_spec m e) as [_ Hk].
  specialize (Hk ltac:(lia)).
  set (k := round_half_up_scaled m e 2) in *. clearbody k.
  set (q := Zpos mx * 2 ^ 53 / Zpos my) in *.
  set (a := 2 ^ (53 - ex + ey)).
  assert (Ha : 512 <= a).
  { change 512 with (2 ^ 9). apply Z.pow_le_mono_r; lia. }
  assert (Hc : 0 < c).
  { assert (0 < 2 ^ (- ey)) by (apply Z.pow_pos_nonneg; lia). nia. }
  (* the quotient of the mantissas is the floor of [n * a / c] *)
  assert (Hscale : Zpos mx * 2 ^ 53 * c = n * a * Zpos my).
  { rewrite Hmy. unfold a. destruct Hmx as [[He0 ->]|[He0 ->]].
    - replace (Zpos mx * 2 ^ ex * 2 ^ (53 - ex + ey) * (c * 2 ^ (- ey)))
        with (Zpos mx * c * (2 ^ ex * 2 ^ (53 - ex + ey) * 2 ^ (- ey))) by ring.
      rewrite <- !Z.pow_add_r by lia.
      replace (ex + (53 - ex + ey) + - ey) with 53 by lia. ring.
    - replace (n * 2 ^ (- ex) * 2 ^ 53 * c)
        with (n * c * (2 ^ (- ex) * 2 ^ 53)) by ring.
      replace (n * 2 ^ (53 - ex + ey) * (c * 2 ^ (- ey)))
        with (n * c * (2 ^ (53 - ex + ey) * 2 ^ (- ey))) by ring.
      rewrite <- !Z.pow_add_r by lia. do 2 f_equal. lia. }
  pose proof (Z.div_mod (Zpos mx * 2 ^ 53) (Zpos my) ltac:(lia)) as Hdiv.
  pose proof (Z.mod_pos_bound (Zpos mx * 2 ^ 53) (Zpos my) ltac:(lia)) as Hmod.
  fold q in Hdiv.
  assert (Hq : q * c <= n * a < (q + 1) * c).
  { assert (q * c * Zpos my <= n * a * Zpos my < (q + 1) * c * Zpos my)
      by nia.
    split; [apply (Z.mul_le_mono_pos_r _ _ (Zpos my))
           |apply (Z.mul_lt_mono_pos_r (Zpos my))]; lia. }
  (* the rounded quotient, in units of [1 / a] *)
  set (r := Zpos m * 2 ^ (e - (ex - ey - 53))) in *.
  assert (Hr : (2 * k - 1) * a <= 200 * r < (2 * k + 1) * a).
  { assert (Hpow : a = 2 ^ (- e) * 2 ^ (e - (ex - ey - 53))).
    { unfold a. rewrite <- Z.pow_add_r by lia. f_equal. lia. }
    assert (0 < 2 ^ (e - (ex - ey - 53))) by (apply Z.pow_pos_nonneg; lia).
    unfold r. rewrite Hpow. nia. }
  clearbody r q a. nia.
Qed.

Lemma div_positive_sign (mx my : positive) ex ey :
  match div (S754_finite false mx ex) (S754_finite false my ey) with
  | S754_finite s _ _ => s = false
  | _ => True
  end.
Proof.
  unfold div, SFdiv.
  destruct (SFdiv_core_binary prec emax (Zpos mx) ex (Zpos my) ey)
    as [[mz ez] lz].
  pose proof (binary_round_aux_sign (xorb false false) mz ez lz) as Hsign.
  by destruct (binary_round_aux prec emax (xorb false false) mz ez lz).
Qed.

(** Up to [2^102] nanoseconds the number of minutes is below [10^21]. *)
Lemma minutes_below_1e21 x n :
  is_number x → Z_of_number x = Some n → 0 < n < 2 ^ 102 →
  below_1e21 (div x (of_Z 60000000000)) = true.
Proof.
  intros Hx Hn Hn102.
  by apply (div_integer_below_1e21 x n 102 7864320000000000 (-17)).
Qed.

(** C2 (amended): for a non-negative integer [n] of nanoseconds,
    [formatDuration] prints [n] itself below 1000, and otherwise the
    quotient of [n] by [10^3], [10^6], [10^9] or [60 * 10^9], as
    microseconds, milliseconds, seconds or minutes, according to the
    thresholds [10^6], [10^9] and [10^12].  The quotient is written
    with two decimal places: always in the first three of these
    branches, and in the minutes branch as long as it is below [10^21].
    The value written is within one hundredth of the exact quotient
    (in the minutes branch, for [n] below [2^80]). *)
Theorem formatDuration_spec x n :
  is_number x → Z_of_number x = Some n → 0 <= n →
  (10 ^ 12 <= n → below_1e21 (div x (of_Z 60000000000)) = true) →
  formatDuration x =
    (if n <? 10 ^ 3 then decimal n ++ " nanoseconds"
     else if n <? 10 ^ 6 then
       two_decimals (hundredths (div x (of_Z 1000))) ++ " microseconds"
     else if n <? 10 ^ 9 then
       two_decimals (hundredths (div x (of_Z 1000000))) ++ " milliseconds"
     else if n <? 10 ^ 12 then
       two_decimals (hundredths (div x (of_Z 1000000000))) ++ " seconds"
     else
       two_decimals (hundredths (div x (of_Z 60000000000))) ++ " minutes")
  ∧ (10 ^ 3 <= n < 10 ^ 6 →
     within_a_hundredth (hundredths (div x (of_Z 1000))) n (10 ^ 3))
  ∧ (10 ^ 6 <= n < 10 ^ 9 →
     within_a_hundredth (hundredths (div x (of_Z 1000000))) n (10 ^ 6))
  ∧ (10 ^ 9 <= n < 10 ^ 12 →
     within_a_hundredth (hundredths (div x (of_Z 1000000000))) n (10 ^ 9))
  ∧ (10 ^ 12 <= n < 2 ^ 80 →
     within_a_hundredth (hundredths (div x (of_Z 60000000000))) n
       (60 * 10 ^ 9)).
Proof.
  intros Hx Hn Hn0 Hminutes. split.
  { unfold formatDuration.
    rewrite (lt_integer x n 1000 8796093022208000 (-43)) by done.
    rewrite (lt_integer x n 1000000 8589934592000000 (-33)) by done.
    rewrite (lt_integer x n 1000000000 8388608000000000 (-23)) by done.
    rewrite (lt_integer x n 1000000000000 8192000000000000 (-13)) by done.
    change (mul (of_Z 1000000000) (of_Z 60)) with (of_Z 60000000000).
    change (10 ^ 3) with 1000. change (10 ^ 6) with 1000000.
    change (10 ^ 9) with 1000000000.
    change (10 ^ 12) with 1000000000000 in *.
    destruct (Z.ltb_spec n 1000) as [H3|H3].
    { rewrite (toString_integer_number x n); [done..|].
    assert (1000 < 2 ^ 53) by done. lia. }
    assert (Hfixed : ∀ (b : Z) (my : positive) ey,
      n < 2 ^ b → Zpos (digits2_pos my) = 53 → -60 <= ey <= 0 → 0 <= b →
      b - ey <= 119 →
      toFixed (div x (S754_finite false my ey)) 2
      = two_decimals (hundredths (div x (S754_finite false my ey)))).
    { intros b my ey Hb Hmy Hey Hb0 Hbey.
      destruct (div_integer_below_1e21 x n b my ey) as [Hbelow Hsign];
        try done; try lia.
      by apply toFixed_below_1e21. }
    destruct (Z.ltb_spec n 1000000) as [H6|H6].
    { f_equal. apply (Hfixed 40 8796093022208000%positive (-43));
        try done; lia. }
    destruct (Z.ltb_spec n 1000000000) as [H9|H9].
    { f_equal. apply (Hfixed 40 8589934592000000%positive (-33));
        try done; lia. }
    destruct (Z.ltb_spec n 1000000000000) as [H12|H12].
    { f_equal. apply (Hfixed 40 8388608000000000%positive (-23));
        try done; lia. }
    f_equal. apply toFixed_below_1e21; [by apply Hminutes|].
    destruct (Z_of_number_positive x n Hn ltac:(lia)) as (m & e & -> & _).
    apply (div_positive_sign m 7864320000000000 e (-17)). }
  change (10 ^ 3) with 1000. change (10 ^ 6) with 1000000.
  change (10 ^ 9) with 1000000000.
  change (10 ^ 12) with 1000000000000.
  change (60 * 1000000000) with 60000000000. split_and!; intros [Hlo Hhi].
  - apply (hundredths_accurate x n 1000 40 8796093022208000 (-43));
      try done; lia.
  - apply (hundredths_accurate x n 1000000 40 8589934592000000 (-33));
      try done; lia.
  - apply (hundredths_accurate x n 1000000000 40 8388608000000000 (-23));
      try done; lia.
  - apply (hundredths_accurate x n 60000000000 80 7864320000000000 (-17));
      try done; lia.
Qed.

(** The duration [2^120] nanoseconds is printed in exponent notation. *)
Lemma formatDuration_huge :
  formatDuration (of_Z (2 ^ 120)) = "2.21537999297486e+25 minutes".
Proof. by vm_compute. Qed.

(** C2, as stated, fails for large durations: [2^120] is a non-negative
    integer number of nanoseconds, the minutes branch applies, and the
    printed value is in exponent notation, not a number with two decimal
    places. *)
Lemma formatDuration_huge_not_two_decimals :
  is_number (of_Z (2 ^ 120))
  ∧ Z_of_number (of_Z (2 ^ 120)) = Some (2 ^ 120)
  ∧ ¬ ∃ k, formatDuration (of_Z (2 ^ 120)) = two_decimals k ++ " minutes".
Proof.
  split; [done|]. split; [done|]. intros [k Hk].
  rewrite formatDuration_huge in Hk. unfold two_decimals in Hk.
  rewrite !append_assoc in Hk.
  set (d := decimal (k / 100)) in Hk.
  assert (Hlen : String.length d = 17%nat).
  { apply (f_equal String.length) in Hk.
    rewrite length_append in Hk. simpl in Hk. lia. }
  apply (f_equal (substring 17 1)) in Hk.
  rewrite <- Hlen in Hk at 2. rewrite substring_skip in Hk.
  rewrite append_String in Hk. simpl in Hk. discriminate Hk.
Qed.

End Duration.

(** ** The filter dropdown: what filtering shows *)

Section FilterDropdown.
Import ClientTypes FrameworkEventsInspector.

Lemma filteredEvents_filter (events : list FrameworkEvent)
    (types : gset string) (threads : gset (option string)) :
  filteredEvents events types threads =
  filter (λ e, (size types = 0%nat ∨ type e ∈ types)
               ∧ (size threads = 0%nat ∨ thread e ∈ threads)) events.
Proof. unfold filteredEvents. apply filter_filter_and. Qed.

Lemma filter_all {A} (P : A → Prop) `{∀ x, Decision (P x)} (l : list A) :
  (∀ x, x ∈ l → P x) → filter P l = l.
Proof.
  induction l as [|x l IH]; intros Hall; [reflexivity|].
  rewrite filter_cons_True by (apply Hall; left).
  f_equal. apply IH. intros y Hy. apply Hall. by right.
Qed.

Lemma filter_nonempty {A} (P : A → Prop) `{∀ x, Decision (P x)} (l : list A) :
  filter P l ≠ [] ↔ ∃ x, x ∈ l ∧ P x.
Proof.
  split.
  - intros Hne. destruct (filter P l) as [|x l'] eqn:E; [done|].
    assert (x ∈ filter P l) as Hin by (rewrite E; left).
    apply list_elem_of_filter in Hin as [HP Hx]. eauto.
  - intros (x & Hx & HP) E.
    assert (x ∈ filter P l) as Hin by (apply list_elem_of_filter; done).
    rewrite E in Hin. by apply not_elem_of_nil in Hin.
Qed.

Lemma length_gt_1_distinct {A} (l : list A) :
  NoDup l → (1 < length l)%nat ↔ ∃ x y, x ∈ l ∧ y ∈ l ∧ x ≠ y.
Proof.
  intros Hnd. split.
  - destruct l as [|x [|y l]]; simpl; try lia. intros _.
    exists x, y. split_and!; [left | right; left |].
    intros ->. apply NoDup_cons in Hnd as [Hx _]. apply Hx. left.
  - intros (x & y & Hx & Hy & Hxy).
    destruct l as [|a [|b l]]; simpl; try lia.
    + by apply not_elem_of_nil in Hx.
    + apply list_elem_of_singleton in Hx, Hy. congruence.
Qed.

(** X1: the badge of the filter button shows zero exactly when both
    filter sets are empty, and then no event is filtered out:
    [filteredEvents] is the whole list of events. *)
Theorem badgeCount_zero (events : list FrameworkEvent)
    (types : gset string) (threads : gset (option string)) :
  (badgeCount types threads = 0%nat ↔ types = ∅ ∧ threads = ∅)
  ∧ (badgeCount types threads = 0%nat →
     filteredEvents events types threads = events).
Proof.
  assert (badgeCount types threads = 0%nat ↔ types = ∅ ∧ threads = ∅) as Hz.
  { unfold badgeCount.
    rewrite <- (leibniz_equiv_iff types), <- (leibniz_equiv_iff threads).
    rewrite <- !size_empty_iff. lia. }
  split; [exact Hz|]. intros H0. unfold badgeCount in H0.
  rewrite filteredEvents_filter. apply filter_all. intros e _. lia.
Qed.

(** X2: starting from no filter, selecting one thread shows exactly
    the events of that thread, and selecting one event type shows
    exactly the events of that type; the resulting list is non-empty
    exactly when the value is one that the dropdown offers, a member of
    [allThreads] or of [allEventTypes]. *)
Theorem select_offered (events : list FrameworkEvent)
    (t : option string) (ty : string) :
  filteredEvents events ∅ (onSelect t true ∅)
    = filter (λ e, thread e = t) events
  ∧ filteredEvents events (onSelect ty true ∅) ∅
    = filter (λ e, type e = ty) events
  ∧ (t ∈ allThreads events ↔
     filteredEvents events ∅ (onSelect t true ∅) ≠ [])
  ∧ (ty ∈ allEventTypes events ↔
     filteredEvents events (onSelect ty true ∅) ∅ ≠ []).
Proof.
  assert (filteredEvents events ∅ (onSelect t true ∅)
          = filter (λ e, thread e = t) events) as Ht.
  { rewrite filteredEvents_filter. apply list_filter_iff. intros e.
    unfold onSelect, produce. rewrite size_empty, union_empty_r_L.
    rewrite size_singleton, elem_of_singleton. intuition lia. }
  assert (filteredEvents events (onSelect ty true ∅) ∅
          = filter (λ e, type e = ty) events) as Hty.
  { rewrite filteredEvents_filter. apply list_filter_iff. intros e.
    unfold onSelect, produce. rewrite size_empty, union_empty_r_L.
    rewrite size_singleton, elem_of_singleton. intuition lia. }
  split_and!; [exact Ht | exact Hty | |].
  - rewrite Ht, filter_nonempty. unfold allThreads.
    destruct (uniqBy_keys thread events) as (_ & Hin & _). apply Hin.
  - rewrite Hty, filter_nonempty. unfold allEventTypes.
    destruct (uniqBy_keys type events) as (_ & Hin & _). apply Hin.
Qed.

(** X3: filtering is idempotent, and it distributes over the
    concatenation of event lists: events that arrive later are filtered
    on their own and appended. *)
Theorem filteredEvents_idempotent_app (events more : list FrameworkEvent)
    (types : gset string) (threads : gset (option string)) :
  filteredEvents (filteredEvents events types threads) types threads
    = filteredEvents events types threads
  ∧ filteredEvents (events ++ more) types threads
    = (filteredEvents events types threads
       ++ filteredEvents more types threads)%list.
Proof.
  split.
  - rewrite (filteredEvents_filter (filteredEvents _ _ _)).
    apply filter_all. intros e He. rewrite filteredEvents_filter in He.
    by apply list_elem_of_filter in He as [He _].
  - rewrite !filteredEvents_filter. apply filter_app.
Qed.

(** X4: the overlay renders its 'By thread' section exactly when two
    events differ in their thread, and its 'By event type' section
    exactly when two events differ in their type. *)
Theorem filter_sections_offered (events : list FrameworkEvent) :
  (byThreadSection events = true ↔
   ∃ e1 e2, e1 ∈ events ∧ e2 ∈ events ∧ thread e1 ≠ thread e2)
  ∧ (byEventTypeSection events = true ↔
     ∃ e1 e2, e1 ∈ events ∧ e2 ∈ events ∧ type e1 ≠ type e2).
Proof.
  split.
  - unfold byThreadSection, allThreads. rewrite bool_decide_eq_true.
    destruct (uniqBy_keys thread events) as (Hnd & Hin & _).
    rewrite (length_gt_1_distinct _ Hnd). split.
    + intros (x & y & Hx & Hy & Hxy).
      apply Hin in Hx as (e1 & H1 & <-). apply Hin in Hy as (e2 & H2 & <-).
      by exists e1, e2.
    + intros (e1 & e2 & H1 & H2 & Hne).
      exists (thread e1), (thread e2). split_and!; [| |done]; apply Hin; eauto.
  - unfold byEventTypeSection, allEventTypes. rewrite bool_decide_eq_true.
    destruct (uniqBy_keys type events) as (Hnd & Hin & _).
    rewrite (length_gt_1_distinct _ Hnd). split.
    + intros (x & y & Hx & Hy & Hxy).
      apply Hin in Hx as (e1 & H1 & <-). apply Hin in Hy as (e2 & H2 & <-).
      by exists e1, e2.
    + intros (e1 & e2 & H1 & H2 & Hne).
      exists (type e1), (type e2). split_and!; [| |done]; apply Hin; eauto.
Qed.

End FilterDropdown.

(** ** The badge count under selection *)

Section BadgeCount.
Import FrameworkEventsInspector.

Lemma size_onSelect `{Countable A} (value : A) (selected : bool)
    (cur : gset A) :
  size (onSelect value selected cur) =
  if selected
  then (if decide (value ∈ cur) then size cur else S (size cur))
  else (if decide (value ∈ cur) then pred (size cur) else size cur).
Proof.
  unfold onSelect, produce. destruct selected; case_decide as Hin.
  - f_equal. apply set_eq. intros x.
    rewrite elem_of_union, elem_of_singleton. split; [|tauto].
    by intros [->|?].
  - rewrite size_union, size_singleton; [done|].
    intros x Hx Hc. by apply elem_of_singleton in Hx as ->.
  - rewrite size_difference, size_singleton; [lia|].
    intros x Hx. by apply elem_of_singleton in Hx as ->.
  - f_equal. apply set_eq. intros x.
    rewrite elem_of_difference, elem_of_singleton. split; [tauto|].
    intros Hx. split; [done|]. by intros ->.
Qed.

(** X5: selecting a thread that is not selected raises the badge count
    by one, deselecting a selected one lowers it by one; selecting a
    selected thread and deselecting an unselected one leave the filter
    set as it is; and two updates commute unless they select and
    deselect the same thread. *)
Theorem badgeCount_onSelect (thread : option string)
    (filteredEventTypes : gset string)
    (filteredThreads : gset (option string)) :
  (thread ∉ filteredThreads →
   badgeCount filteredEventTypes (onSelect thread true filteredThreads)
   = S (badgeCount filteredEventTypes filteredThreads))
  ∧ (thread ∈ filteredThreads →
     S (badgeCount filteredEventTypes (onSelect thread false filteredThreads))
     = badgeCount filteredEventTypes filteredThreads)
  ∧ (thread ∈ filteredThreads →
     onSelect thread true filteredThreads = filteredThreads)
  ∧ (thread ∉ filteredThreads →
     onSelect thread false filteredThreads = filteredThreads)
  ∧ (∀ other a b,
       onSelect thread a (onSelect other b filteredThreads)
       = onSelect other b (onSelect thread a filteredThreads)
       ∨ (thread = other ∧ a ≠ b)).
Proof.
  unfold badgeCount. split_and!.
  - intros Hn. rewrite size_onSelect. by rewrite decide_False by done.
  - intros Hin. rewrite size_onSelect. rewrite decide_True by done.
    assert (size filteredThreads ≠ 0%nat); [|lia].
    intros H0. apply size_empty_iff in H0. by apply H0 in Hin.
  - intros Hin. unfold onSelect, produce. apply set_eq. intros x.
    rewrite elem_of_union, elem_of_singleton. split; [|tauto].
    by intros [->|?].
  - intros Hn. unfold onSelect, produce. apply set_eq. intros x.
    rewrite elem_of_difference, elem_of_singleton. split; [tauto|].
    intros Hx. split; [done|]. by intros ->.
  - intros other a b. destruct (decide (thread = other)) as [->|Hne].
    + destruct a, b; [left; done | right | right | left; done]; done.
    + left. unfold onSelect, produce.
      destruct a, b; apply set_eq; intros x;
        rewrite ?elem_of_union, ?elem_of_difference, ?elem_of_union,
          ?elem_of_difference, ?elem_of_singleton; intuition congruence.
Qed.
End BadgeCount.

(** ** Arriving events and changing selections *)

Section Arrivals.
Import ClientTypes FrameworkEventsInspector.

Lemma baseUniq_app {A K} `{EqDecision K} (f : A → K) (seen : list K)
    (l more : list A) :
  Lodash.baseUniq f seen (l ++ more)
  = (Lodash.baseUniq f seen l
     ++ Lodash.baseUniq f (seen ++ (f <$> Lodash.baseUniq f seen l)) more)%list.
Proof.
  revert seen. induction l as [|value l IH]; intros seen.
  - simpl. by rewrite app_nil_r.
  - simpl. case_decide as Hseen.
    + apply IH.
    + rewrite IH. simpl. by rewrite <- app_assoc.
Qed.

Lemma filter_sublist_impl {A} (P Q : A → Prop) `{∀ x, Decision (P x)}
    `{∀ x, Decision (Q x)} (l : list A) :
  (∀ x, P x → Q x) → sublist (filter P l) (filter Q l).
Proof.
  intros Himpl. induction l as [|x l IH]; [done|].
  rewrite !filter_cons. destruct (decide (P x)) as [HP|HP].
  - rewrite decide_True by auto. by apply sublist_skip.
  - destruct (decide (Q x)); [by apply sublist_cons|done].
Qed.

(** X19: when further events arrive, the lists of threads and of event
    types offered by the dropdown keep their items and their order,
    new values being added at the end; and neither list is longer than
    the list of events. *)
Theorem allThreads_allEventTypes_app (events more : list FrameworkEvent) :
  allThreads events `prefix_of` allThreads (events ++ more)
  ∧ allEventTypes events `prefix_of` allEventTypes (events ++ more)
  ∧ (length (allThreads events) ≤ length events)%nat
  ∧ (length (allEventTypes events) ≤ length events)%nat.
Proof.
  unfold allThreads, allEventTypes, Lodash.uniqBy. split_and!.
  - rewrite baseUniq_app, fmap_app. by eexists.
  - rewrite baseUniq_app, fmap_app. by eexists.
  - rewrite length_fmap. generalize (@nil (option string)).
    induction events as [|e events IH]; intros seen; simpl; [lia|].
    case_decide; simpl.
    + specialize (IH seen). lia.
    + specialize (IH (seen ++ [thread e])%list). lia.
  - rewrite length_fmap. generalize (@nil string).
    induction events as [|e events IH]; intros seen; simpl; [lia|].
    case_decide; simpl.
    + specialize (IH seen). lia.
    + specialize (IH (seen ++ [type e])%list). lia.
Qed.

(** X20: with a non-empty thread filter, selecting one more thread
    only adds events to the filtered list and deselecting one, while
    some thread stays selected, only removes events; any selection
    shows a part of what no thread filter shows, and deselecting the
    only selected thread shows all of it again. *)
Theorem filteredEvents_selection (events : list FrameworkEvent)
    (types : gset string) (threads : gset (option string))
    (thread : option string) :
  (threads ≠ ∅ →
   sublist (filteredEvents events types threads)
     (filteredEvents events types (onSelect thread true threads)))
  ∧ sublist (filteredEvents events types (onSelect thread true threads))
      (filteredEvents events types ∅)
  ∧ (threads = {[ thread ]} →
     filteredEvents events types (onSelect thread false threads)
     = filteredEvents events types ∅)
  ∧ (onSelect thread false threads ≠ ∅ →
     sublist (filteredEvents events types (onSelect thread false threads))
       (filteredEvents events types threads)).
Proof.
  rewrite !filteredEvents_filter. unfold onSelect, produce. split_and!.
  - intros Hne. apply filter_sublist_impl. intros e [Ht [H0|Hin]].
    + apply size_empty_iff in H0. by apply leibniz_equiv in H0.
    + split; [done|]. right. apply elem_of_union. by right.
  - apply filter_sublist_impl. intros e [Ht _]. split; [done|].
    left. apply size_empty.
  - intros ->. by rewrite difference_diag_L.
  - intros Hne. apply filter_sublist_impl. intros e [Ht [H0|Hin]].
    + apply size_empty_iff in H0. by apply leibniz_equiv in H0.
    + split; [done|]. right. by apply elem_of_difference in Hin as [? _].
Qed.

End Arrivals.

(** ** Names of event types: the dropdown text and other separators *)

Section EventTypeText.
Import Js Spec FrameworkEventsInspector.
Implicit Types (sep eventType pre post piece : string).

Lemma eventTypeToName_cases sep eventType :
  String.length sep = 1%nat →
  (occurs sep eventType = false ∧ eventTypeToName sep eventType = eventType)
  ∨ (∃ pre post, eventType = pre ++ sep ++ post ∧ occurs sep post = false
                 ∧ eventTypeToName sep eventType = post).
Proof.
  intros Hlen. destruct (occurs sep eventType) eqn:Hoccurs.
  - right. destruct (last_occurrence sep eventType Hlen Hoccurs)
      as (pre & post & -> & Hpost).
    exists pre, post. split_and!; [done..|].
    destruct sep as [|c [|c' sep']]; try done.
    assert (Hidx : lastIndexOf (pre ++ String c "" ++ post) (String c "")
                   = Z.of_nat (String.length pre)).
    { unfold lastIndexOf.
      assert (Hhere : lastIndexOf_from (0 + Z.of_nat (String.length pre))
                        (String c "" ++ post) (String c "")
                      = 0 + Z.of_nat (String.length pre)).
      { apply lastIndexOf_from_here.
        - apply prefix_iff. by exists post.
        - by intros c' rest [= _ <-]. }
      rewrite lastIndexOf_from_app; rewrite Hhere; lia. }
    unfold eventTypeToName. rewrite Hidx, <- append_assoc.
    replace (Z.of_nat (String.length pre) + 1)
      with (Z.of_nat (String.length (pre ++ String c ""))).
    + apply slice_app.
    + rewrite length_append. simpl. lia.
  - left. split; [done|]. unfold eventTypeToName, lastIndexOf.
    rewrite (lastIndexOf_from_absent _ _ _ Hoccurs). apply slice_0.
Qed.

Lemma split_from_cons sep c rest piece :
  split_from sep (String c rest) piece 0 =
  if String.prefix sep (String c rest)
  then piece :: split_from sep rest "" (String.length sep - 1)
  else split_from sep rest (piece ++ String c "") 0.
Proof. reflexivity. Qed.

Lemma split_from_last sep s piece skip :
  ∃ t, list.last (split_from sep s piece skip) = Some t.
Proof.
  revert piece skip. induction s as [|a s IH]; intros piece skip.
  - by exists piece.
  - destruct skip as [|skip]; [|apply IH].
    rewrite split_from_cons. destruct (String.prefix sep (String a s)).
    + destruct (IH "" (String.length sep - 1)%nat) as [t Ht].
      exists t. by rewrite last_cons, Ht.
    + apply IH.
Qed.

Lemma split_from_absent c s piece :
  occurs (String c "") s = false →
  split_from (String c "") s piece 0 = [piece ++ s].
Proof.
  revert piece. induction s as [|a s IH]; intros piece.
  - intros _. simpl. by rewrite append_empty_r.
  - rewrite occurs_cons. intros [Hp Hs]%orb_false_iff.
    rewrite split_from_cons, Hp, IH by done.
    by rewrite append_assoc, append_String, append_empty.
Qed.

Lemma last_split_from_app c pre post piece :
  list.last (split_from (String c "") (pre ++ String c "" ++ post) piece 0)
  = list.last (split_from (String c "") post "" 0).
Proof.
  revert piece. induction pre as [|a pre IH]; intros piece.
  - rewrite append_empty, append_String, append_empty, split_from_cons.
    assert (String.prefix (String c "") (String c post) = true) as ->.
    { apply prefix_iff. exists post.
      by rewrite append_String, append_empty. }
    destruct (split_from_last (String c "") post "" 0) as [t Ht].
    simpl String.length. simpl Nat.sub. by rewrite last_cons, Ht.
  - rewrite append_String, split_from_cons.
    destruct (String.prefix _ _); [|apply IH].
    simpl String.length. simpl Nat.sub.
    destruct (split_from_last (String c "")
                (pre ++ String c "" ++ post) "" 0) as [t Ht].
    rewrite last_cons, Ht, <- Ht. apply IH.
Qed.

Lemma Lodash_last_last {A} (array : list A) :
  Lodash.last array = list.last array.
Proof.
  unfold Lodash.last. rewrite last_lookup, Nat.sub_1_r.
  case_decide as Hlen; [|done].
  by apply length_zero_iff_nil in Hlen as ->.
Qed.

(** X6: the text of an event type item of the dropdown,
    [last(eventType.split('.'))], is always defined and is the name
    [eventTypeToName] gives with the separator ["."]. *)
Theorem eventTypeText_eventTypeToName eventType :
  eventTypeText eventType = Some (eventTypeToName "." eventType).
Proof.
  unfold eventTypeText, split. rewrite Lodash_last_last.
  destruct (eventTypeToName_cases "." eventType eq_refl)
    as [[Habsent ->]|(pre & post & -> & Hpost & ->)].
  - rewrite split_from_absent by done. by rewrite append_empty.
  - rewrite last_split_from_app, split_from_absent by done.
    by rewrite append_empty.
Qed.

(** X7: with a separator of one character, the name of an event type
    does not contain the separator, and taking the name of a name
    changes nothing. *)
Theorem eventTypeToName_idempotent sep eventType :
  String.length sep = 1%nat →
  occurs sep (eventTypeToName sep eventType) = false
  ∧ eventTypeToName sep (eventTypeToName sep eventType)
    = eventTypeToName sep eventType.
Proof.
  intros Hlen.
  assert (occurs sep (eventTypeToName sep eventType) = false) as Hfree.
  { destruct (eventTypeToName_cases sep eventType Hlen)
      as [[Habsent ->]|(pre & post & _ & Hpost & ->)]; done. }
  split; [done|].
  destruct (eventTypeToName_cases sep (eventTypeToName sep eventType) Hlen)
    as [[_ ->]|(pre & post & Heq & _)]; [done|].
  assert (occurs sep (eventTypeToName sep eventType) = true) as Hocc.
  { apply occurs_iff. eauto. }
  congruence.
Qed.

Lemma lastIndexOf_from_empty s from :
  0 <= from → lastIndexOf_from from s "" = from + Z.of_nat (String.length s).
Proof.
  revert from. induction s as [|a s IH]; intros from Hfrom.
  - simpl. lia.
  - rewrite lastIndexOf_from_cons, IH by lia.
    destruct (0 <=? _) eqn:E; [simpl String.length; lia|].
    apply Z.leb_gt in E. lia.
Qed.

Lemma substring_0_length s n : substring n 0 s = "".
Proof.
  revert n. induction s as [|a s IH]; intros [|n]; simpl; auto.
Qed.

(** X8: with the empty separator [lastIndexOf] is the length of the
    event type and the name is empty; with a separator [c :: tail] of
    any length whose last occurrence is followed by [post], the name
    starts one character after the start of that occurrence, so it is
    [tail ++ post]. *)
Theorem eventTypeToName_any_separator eventType :
  (lastIndexOf eventType "" = Z.of_nat (String.length eventType)
   ∧ eventTypeToName "" eventType = "")
  ∧ ∀ c tail pre post,
      eventType = pre ++ String c tail ++ post →
      occurs (String c tail) (tail ++ post) = false →
      lastIndexOf eventType (String c tail) = Z.of_nat (String.length pre)
      ∧ eventTypeToName (String c tail) eventType = tail ++ post.
Proof.
  split.
  - assert (lastIndexOf eventType "" = Z.of_nat (String.length eventType))
      as Hi.
    { unfold lastIndexOf. rewrite lastIndexOf_from_empty; lia. }
    split; [done|]. unfold eventTypeToName, slice. rewrite Hi.
    assert ((Z.of_nat (String.length eventType) + 1 <? 0) = false) as ->
      by (apply Z.ltb_ge; lia).
    rewrite Z.min_r by lia. rewrite Z.sub_diag. apply substring_0_length.
  - intros c tail pre post -> Hlater.
    assert (Hidx : lastIndexOf (pre ++ String c tail ++ post) (String c tail)
                   = Z.of_nat (String.length pre)).
    { unfold lastIndexOf.
      assert (Hhere : lastIndexOf_from (0 + Z.of_nat (String.length pre))
                        (String c tail ++ post) (String c tail)
                      = 0 + Z.of_nat (String.length pre)).
      { apply lastIndexOf_from_here.
        - apply prefix_iff. by exists post.
        - intros c' rest. rewrite append_String. by intros [= _ <-]. }
      rewrite lastIndexOf_from_app; rewrite Hhere; lia. }
    split; [done|]. unfold eventTypeToName. rewrite Hidx.
    rewrite append_String.
    replace (pre ++ String c (tail ++ post))
      with ((pre ++ String c "") ++ (tail ++ post))
      by (by rewrite append_assoc, append_String, append_empty).
    replace (Z.of_nat (String.length pre) + 1)
      with (Z.of_nat (String.length (pre ++ String c ""))).
    + apply slice_app.
    + rewrite length_append. simpl. lia.
Qed.

End EventTypeText.

(** ** parseInt reads back the decimal digits of an integer *)

Section ParseInt.
Import Js Spec.

Lemma digit_value_digit d : 0 <= d <= 9 → digit_value (digit d) = Some d.
Proof.
  intros Hd.
  assert (d = 0 ∨ d = 1 ∨ d = 2 ∨ d = 3 ∨ d = 4 ∨ d = 5 ∨ d = 6 ∨ d = 7
          ∨ d = 8 ∨ d = 9) as Hcases by lia.
  repeat destruct Hcases as [->|Hcases]; try subst d; reflexivity.
Qed.

Lemma leading_digits_cons c s :
  leading_digits (String c s) =
  match digit_value c with
  | Some d => d :: leading_digits s
  | None => []
  end.
Proof. reflexivity. Qed.

(** The digits of [decimal n] are read back as [n], whatever follows. *)
Lemma leading_digits_decimal n :
  0 <= n →
  ∃ ds, ds ≠ [] ∧ digits_value ds = n
        ∧ ∀ rest, leading_digits (decimal n ++ rest)
                  = (ds ++ leading_digits rest)%list.
Proof.
  intros Hn0. revert n Hn0. apply (Zlt_0_ind (λ n, ∃ ds, ds ≠ [] ∧ digits_value ds = n
        ∧ ∀ rest, leading_digits (decimal n ++ rest)
                  = (ds ++ leading_digits rest)%list)).
  intros n IH Hn. destruct (Z_lt_le_dec n 10) as [Hsmall|Hbig].
  - exists [n]. split_and!; [done| unfold digits_value; simpl; lia |].
    intros rest. rewrite decimal_small by lia.
    rewrite append_String, append_empty, leading_digits_cons.
    by rewrite digit_value_digit by lia.
  - pose proof (Z.div_mod n 10 ltac:(lia)) as Hdm.
    pose proof (Z.mod_pos_bound n 10 ltac:(lia)) as Hmod.
    pose proof (decimal_step n Hbig) as Hstep.
    set (q := n / 10) in *. set (r := n mod 10) in *. clearbody q r.
    destruct (IH q ltac:(lia)) as (ds & Hne & Hval & Hread).
    exists (ds ++ [r])%list. split_and!.
    + by destruct ds.
    + unfold digits_value in *. rewrite fold_left_app. simpl. lia.
    + intros rest. rewrite Hstep.
      rewrite append_assoc, Hread, append_String, append_empty.
      rewrite leading_digits_cons, digit_value_digit by lia.
      by rewrite <- app_assoc.
Qed.

Lemma of_Z_0 : of_Z 0 = S754_zero false.
Proof. reflexivity. Qed.

Lemma parseInt_digit_head c rest d :
  digit_value c = Some d →
  parseInt (String c rest) =
  let mathInt := digits_value (leading_digits (String c rest)) in
  if mathInt =? 0 then S754_zero false else of_Z mathInt.
Proof.
  intros Hd. unfold parseInt.
  assert (trimStart (String c rest) = String c rest) as ->.
  { simpl. destruct (isWhiteSpace c) eqn:Hw; [|done].
    exfalso. revert Hd Hw. unfold digit_value, isWhiteSpace.
    generalize (Z.of_nat (nat_of_ascii c)). intros n.
    destruct (48 <=? n) eqn:H1; [|done]. destruct (n <=? 57) eqn:H2; [|done].
    intros _ Hw. lia. }
  assert (c ≠ "-"%char ∧ c ≠ "+"%char) as [Hm Hp].
  { split; intros ->; vm_compute in Hd; discriminate. }
  assert (match String c rest with
          | String "-"%char r => (true, r)
          | String "+"%char r => (false, r)
          | _ => (false, String c rest)
          end = (false, String c rest)) as ->.
  { destruct c as [[] [] [] [] [] [] [] []]; try reflexivity; congruence. }
  rewrite leading_digits_cons, Hd. reflexivity.
Qed.

Lemma parseInt_decimal n : 0 <= n → parseInt (decimal n) = of_Z n.
Proof.
  intros Hn. destruct (leading_digits_decimal n Hn) as (ds & Hne & Hval & Hread).
  specialize (Hread ""). rewrite append_empty_r in Hread. simpl in Hread.
  rewrite app_nil_r in Hread.
  destruct (decimal n) as [|c rest] eqn:E.
  { simpl in Hread. congruence. }
  rewrite leading_digits_cons in Hread.
  destruct (digit_value c) as [d|] eqn:Hd; [|congruence].
  rewrite (parseInt_digit_head c rest d Hd). cbv zeta.
  rewrite leading_digits_cons, Hd, Hread, Hval.
  destruct (n =? 0) eqn:E0; [|done].
  apply Z.eqb_eq in E0 as ->. reflexivity.
Qed.

Lemma Z_of_number_of_Z i : 0 <= i < 2 ^ 53 → Z_of_number (of_Z i) = Some i.
Proof.
  intros Hi. destruct (decide (i = 0)) as [->|Hne]; [reflexivity|].
  rewrite of_Z_integer by lia. unfold canonical_integer, Z_of_number.
  assert (Z.log2 i < 53) by (apply Z.log2_lt_pow2; lia).
  pose proof (Z.log2_nonneg i).
  set (k := 52 - Z.log2 i). replace (Z.log2 i - 52) with (- k) by lia.
  assert (0 <= k) by lia. clearbody k.
  assert (0 < 2 ^ k) by (apply Z.pow_pos_nonneg; lia).
  rewrite Z2Pos.id by nia. rewrite Z.opp_involutive.
  destruct (0 <=? - k) eqn:E.
  - apply Z.leb_le in E. assert (k = 0) as -> by lia. simpl.
    f_equal. lia.
  - rewrite Z.mod_mul by lia. simpl. rewrite Z.div_mul by lia. done.
Qed.

End ParseInt.

(** ** Clicks on the timeline *)

Section TimelineClick.
Import ClientTypes FrameworkEventsInspector.
Variables (theme : Theme) (frameworkEventSeparator : string).
Variables (node : ClientNode)
  (frameworkEventMetadata : gmap string FrameworkEventMetadata).
Implicit Types (filtered : list FrameworkEvent).

Lemma timeline_key filtered (i : nat) entry :
  Z.of_nat (length filtered) < 2 ^ 32 →
  timeline_time theme frameworkEventSeparator filtered !! i = Some entry →
  key entry = Js.decimal (Z.of_nat i) ∧ (i < length filtered)%nat.
Proof.
  intros Hlen. unfold timeline_time. rewrite list_lookup_imap.
  destruct (filtered !! i) as [event|] eqn:Hi; [|done].
  intros [= <-]. simpl. apply lookup_lt_Some in Hi. split; [|done].
  apply toString_integer. assert (2 ^ 32 < 2 ^ 53) by done. lia.
Qed.

Lemma index_of_Z filtered (i : nat) :
  Z.of_nat i < 2 ^ 53 → index filtered (Js.of_Z (Z.of_nat i)) = filtered !! i.
Proof.
  intros Hi. unfold index. rewrite Z_of_number_of_Z by lia.
  rewrite Nat2Z.id. destruct (0 <=? Z.of_nat i) eqn:E; [done|].
  apply Z.leb_gt in E. lia.
Qed.

(** X9: the key of the [i]-th timeline entry is parsed back to [i] by
    [parseInt], so a click on that entry calls [showExtra] with the
    title 'Event details' and the details of the [i]-th filtered event,
    with the metadata registered for its type. *)
Theorem onClick_timeline_entry filtered (i : nat) event entry :
  Z.of_nat (length filtered) < 2 ^ 32 →
  filtered !! i = Some event →
  timeline_time theme frameworkEventSeparator filtered !! i = Some entry →
  Js.parseInt (key entry) = Js.of_Z (Z.of_nat i)
  ∧ onClick node true frameworkEventMetadata filtered (key entry)
    = Normal (Some ("Event details",
                    {| props_frameworkEventMetadata :=
                         frameworkEventMetadata !! type event;
                       props_event := event;
                       props_node := node |})).
Proof.
  intros Hlen Hi Hentry.
  destruct (timeline_key filtered i entry Hlen Hentry) as [Hkey Hlt].
  assert (Js.parseInt (key entry) = Js.of_Z (Z.of_nat i)) as Hparse.
  { rewrite Hkey. apply parseInt_decimal. lia. }
  split; [done|]. unfold onClick. rewrite Hparse, index_of_Z, Hi; [done|].
  assert (2 ^ 32 < 2 ^ 53) by done. lia.
Qed.

(** X10: the keys of the timeline entries are pairwise distinct. *)
Theorem timeline_keys_distinct filtered :
  Z.of_nat (length filtered) < 2 ^ 32 →
  NoDup (key <$> timeline_time theme frameworkEventSeparator filtered).
Proof.
  intros Hlen. apply NoDup_alt. intros i j k.
  rewrite !list_lookup_fmap.
  destruct (timeline_time _ _ _ !! i) as [ei|] eqn:Hi; [|done].
  destruct (timeline_time _ _ _ !! j) as [ej|] eqn:Hj; [|done].
  simpl. intros [= Hki] [= Hkj].
  destruct (timeline_key filtered i ei Hlen Hi) as [Hkey_i Hlt_i].
  destruct (timeline_key filtered j ej Hlen Hj) as [Hkey_j Hlt_j].
  assert (Js.parseInt (Js.decimal (Z.of_nat i))
          = Js.parseInt (Js.decimal (Z.of_nat j))) as Heq by congruence.
  rewrite !parseInt_decimal in Heq by lia.
  assert (2 ^ 32 < 2 ^ 53) by done.
  apply (f_equal Js.Z_of_number) in Heq.
  rewrite !Z_of_number_of_Z in Heq by lia. injection Heq. lia.
Qed.

(** X11: without [showExtra] the click handler does nothing, whatever
    the key; with [showExtra], a key that is the decimal form of an
    index past the end of the filtered events, or one that [parseInt]
    maps to NaN, such as the timeline's initial 'initialNone', makes
    the handler throw a TypeError. *)
Theorem onClick_no_event filtered :
  (∀ current,
     onClick node false frameworkEventMetadata filtered current = Normal None)
  ∧ (∀ i : nat,
       (length filtered ≤ i)%nat → Z.of_nat i < 2 ^ 53 →
       onClick node true frameworkEventMetadata filtered
         (Js.decimal (Z.of_nat i)) = Throw "TypeError")
  ∧ (∀ current,
       Js.parseInt current = S754_nan →
       onClick node true frameworkEventMetadata filtered current
       = Throw "TypeError")
  ∧ Js.parseInt "initialNone" = S754_nan.
Proof.
  split_and!.
  - done.
  - intros i Hi H53. unfold onClick.
    rewrite parseInt_decimal, index_of_Z by lia.
    by rewrite (lookup_ge_None_2 filtered i Hi).
  - intros current Hnan. unfold onClick. by rewrite Hnan.
  - reflexivity.
Qed.

End TimelineClick.

(** ** PowerSearchEnumTerm: the calls made by the handlers *)

Section SelectHandlers.
Import Spec PowerSearchEnumTerm.

Lemma run_cons event rest ref :
  run ref (event :: rest) =
  ((run (handle event ref).1 rest).1,
   ((handle event ref).2 ++ (run (handle event ref).1 rest).2)%list).
Proof.
  cbn [run]. destruct (handle event ref) as [ref1 calls1].
  cbn [fst snd]. by destruct (run ref1 rest) as [ref2 calls2].
Qed.

Lemma run_app pre post ref :
  run ref (pre ++ post) =
  ((run (run ref pre).1 post).1,
   ((run ref pre).2 ++ (run (run ref pre).1 post).2)%list).
Proof.
  revert ref. induction pre as [|event pre IH]; intros ref.
  - simpl. by destruct (run ref post).
  - rewrite <- app_comm_cons, !run_cons, IH. simpl. by rewrite app_assoc.
Qed.

Lemma last_selected_cons event events ref :
  from_option Some ref (list.last (omap selected (event :: events)))
  = from_option Some (handle event ref).1 (list.last (omap selected events)).
Proof.
  destruct event as [|value|key]; try done.
  change (omap selected (Select value :: events))
    with (value :: omap selected events).
  rewrite last_cons. by destruct (list.last (omap selected events)).
Qed.

Lemma run_ref events ref :
  (run ref events).1 = from_option Some ref (list.last (omap selected events)).
Proof.
  revert ref. induction events as [|event events IH]; intros ref; [done|].
  rewrite run_cons. cbn [fst]. by rewrite IH, last_selected_cons.
Qed.

(** X12: over any sequence of blur, select and key-down events, the
    values passed to [onChange] are the selected values, in order, and
    [selectValueRef] ends up holding the last selected value, or its
    initial content when nothing was selected. *)
Theorem select_calls_onChange events ref :
  omap changed (run ref events).2 = omap selected events
  ∧ (run ref events).1
    = from_option Some ref (list.last (omap selected events)).
Proof.
  split; [|apply run_ref].
  revert ref. induction events as [|event events IH]; intros ref; [done|].
  rewrite run_cons. simpl. rewrite omap_app, IH.
  destruct event as [|value|key]; simpl; try done.
  - unfold onBlur. simpl. by destruct (not_current ref).
  - by destruct (_ || _).
Qed.

(** X13: [onCancel] is called during a sequence of events exactly when
    some blur in it comes at a moment when the last value selected
    before it, or the initial content of [selectValueRef] when there is
    none, is undefined or the empty string. *)
Theorem blur_calls_onCancel events ref :
  OnCancel ∈ (run ref events).2 ↔
  ∃ pre post, events = (pre ++ Blur :: post)%list
    ∧ not_current (from_option Some ref (list.last (omap selected pre)))
      = true.
Proof.
  revert ref. induction events as [|event events IH]; intros ref.
  - split; [by intros ?%not_elem_of_nil|].
    intros (pre & post & Heq & _). by destruct pre.
  - rewrite run_cons. simpl. rewrite elem_of_app, IH. split.
    + intros [Hnow|(pre & post & -> & Hpre)].
      * destruct event as [|value|key]; simpl in Hnow.
        -- exists [], events. split; [done|]. simpl.
           destruct (not_current ref); [done|].
           by apply not_elem_of_nil in Hnow.
        -- by apply list_elem_of_singleton in Hnow.
        -- destruct (_ || _); [by apply list_elem_of_singleton in Hnow|].
           by apply not_elem_of_nil in Hnow.
      * exists (event :: pre), post. split; [done|].
        by rewrite last_selected_cons.
    + intros (pre & post & Heq & Hpre). destruct pre as [|e pre].
      * simpl in Heq. injection Heq as -> ->. left. simpl in *.
        rewrite Hpre. left.
      * rewrite <- app_comm_cons in Heq. injection Heq as -> ->.
        right. exists pre, post. split; [done|].
        by rewrite <- Hpre, last_selected_cons.
Qed.

End SelectHandlers.

(** ** Row styles extend the monospace style *)

Section RowStyleBase.
Import ConnectivityLogs.

(** X14: a row style differs from the theme's monospace style in its
    colour at most: every other property is kept, no property of the
    monospace style is lost, and the colour is the primary colour, the
    error colour, or the style is the monospace style itself. *)
Theorem getRowStyle_monospace (theme : Theme)
    (entry : ConnectionRecordEntry) :
  delete "color" (getRowStyle theme entry) = delete "color" (monospace theme)
  ∧ dom (monospace theme) ⊆ dom (getRowStyle theme entry)
  ∧ (getRowStyle theme entry !! "color" = Some (primaryColor theme)
     ∨ getRowStyle theme entry !! "color" = Some (errorColor theme)
     ∨ getRowStyle theme entry = monospace theme).
Proof.
  unfold getRowStyle, getProperty. rewrite logTypes_lookup.
  unfold baseRowStyle, CSSProperties.
  repeat case_decide; simpl; try case_decide; simpl.
  - split_and!; [done|done|by right; right].
  - split_and!; [apply delete_insert_eq| |left; apply lookup_insert_eq].
    intros k [v Hv]%elem_of_dom. apply elem_of_dom.
    destruct (decide (k = "color")) as [->|Hk].
    + rewrite lookup_insert_eq. eauto.
    + rewrite lookup_insert_ne by done. eauto.
  - split_and!; [apply delete_insert_eq| |right; left; apply lookup_insert_eq].
    intros k [v Hv]%elem_of_dom. apply elem_of_dom.
    destruct (decide (k = "color")) as [->|Hk].
    + rewrite lookup_insert_eq. eauto.
    + rewrite lookup_insert_ne by done. eauto.
  - split_and!; [done|done|by right; right].
  - split_and!; [done|done|by right; right].
Qed.

End RowStyleBase.

(** ** SandyApp: the tracking scope of the sidebar *)

Section Sidebar.
Import SandyApp.

(** X15: when the sidebar renders a tracking scope, the left sidebar
    is visible and the scope, the asserted [topLevelSelection], is
    'appinspect' around the AppInspect view or 'notification' around
    the Notification view, never undefined; nothing is rendered when
    the sidebar is hidden or the selection is any other value. *)
Theorem sidebarChild_scope (leftSidebarVisible : bool)
    (topLevelSelection : option string) :
  match sidebarChild leftSidebarVisible topLevelSelection with
  | Some tracking =>
      leftSidebarVisible = true
      ∧ scope tracking = topLevelSelection
      ∧ ((scope tracking = Some "appinspect"
          ∧ children tracking = AppInspect)
         ∨ (scope tracking = Some "notification"
            ∧ children tracking = Notification))
  | None =>
      leftSidebarVisible = false
      ∨ (topLevelSelection ≠ Some "appinspect"
         ∧ topLevelSelection ≠ Some "notification")
  end.
Proof.
  unfold sidebarChild, leftMenuContent.
  destruct leftSidebarVisible; simpl; [|by left].
  repeat case_decide; simpl; subst; auto.
Qed.

End Sidebar.

(** ** formatDuration: the range of the printed value, and other numbers *)

Section DurationRange.
Import Js Spec FrameworkEventsInspector.

Lemma formatDuration_integer x n :
  is_number x → Z_of_number x = Some n → 1000 <= n < 2 ^ 102 →
  formatDuration x =
    (if n <? 1000000 then
       two_decimals (hundredths (div x (of_Z 1000))) ++ " microseconds"
     else if n <? 1000000000 then
       two_decimals (hundredths (div x (of_Z 1000000))) ++ " milliseconds"
     else if n <? 1000000000000 then
       two_decimals (hundredths (div x (of_Z 1000000000))) ++ " seconds"
     else
       two_decimals (hundredths (div x (of_Z 60000000000))) ++ " minutes").
Proof.
  intros Hx Hn [Hlo Hhi]. unfold formatDuration.
  rewrite (lt_integer x n 1000 8796093022208000 (-43)) by (done || lia).
  rewrite (lt_integer x n 1000000 8589934592000000 (-33)) by (done || lia).
  rewrite (lt_integer x n 1000000000 8388608000000000 (-23))
    by (done || lia).
  rewrite (lt_integer x n 1000000000000 8192000000000000 (-13))
    by (done || lia).
  change (mul (of_Z 1000000000) (of_Z 60)) with (of_Z 60000000000).
  destruct (Z.ltb_spec n 1000) as [H3|H3]; [lia|].
  assert (Hfixed : ∀ (b : Z) (my : positive) ey,
    n < 2 ^ b → Zpos (digits2_pos my) = 53 → -60 <= ey <= 0 → 0 <= b →
    b - ey <= 119 →
    toFixed (div x (S754_finite false my ey)) 2
    = two_decimals (hundredths (div x (S754_finite false my ey)))).
  { intros b my ey Hb Hmy Hey Hb0 Hbey.
    destruct (div_integer_below_1e21 x n b my ey) as [Hbelow Hsign];
      try done; try lia.
    by apply toFixed_below_1e21. }
  destruct (Z.ltb_spec n 1000000) as [H6|H6].
  { f_equal. apply (Hfixed 40 8796093022208000%positive (-43));
      try done; lia. }
  destruct (Z.ltb_spec n 1000000000) as [H9|H9].
  { f_equal. apply (Hfixed 40 8589934592000000%positive (-33));
      try done; lia. }
  destruct (Z.ltb_spec n 1000000000000) as [H12|H12].
  { f_equal. apply (Hfixed 40 8388608000000000%positive (-23));
      try done; lia. }
  f_equal. apply toFixed_below_1e21.
  - apply (minutes_below_1e21 x n); [done..|lia].
  - destruct (Z_of_number_positive x n Hn ltac:(lia)) as (m & e & -> & _).
    apply (div_positive_sign m 7864320000000000 e (-17)).
Qed.

(** X16: for an integer number [n] of nanoseconds, the value printed
    in microseconds, milliseconds or seconds is between 1.00 and
    1000.00, both included, and the value printed in minutes, for
    [n < 2^80], is at least 16.66. *)
Theorem formatDuration_scaled_range x n :
  is_number x → Z_of_number x = Some n →
  (10 ^ 3 <= n < 10 ^ 6 →
   ∃ k, 100 <= k <= 100000
        ∧ formatDuration x = two_decimals k ++ " microseconds")
  ∧ (10 ^ 6 <= n < 10 ^ 9 →
     ∃ k, 100 <= k <= 100000
          ∧ formatDuration x = two_decimals k ++ " milliseconds")
  ∧ (10 ^ 9 <= n < 10 ^ 12 →
     ∃ k, 100 <= k <= 100000
          ∧ formatDuration x = two_decimals k ++ " seconds")
  ∧ (10 ^ 12 <= n < 2 ^ 80 →
     ∃ k, 1666 <= k ∧ formatDuration x = two_decimals k ++ " minutes").
Proof.
  intros Hx Hn.
  change (10 ^ 3) with 1000. change (10 ^ 6) with 1000000.
  change (10 ^ 9) with 1000000000. change (10 ^ 12) with 1000000000000.
  assert (2 ^ 80 < 2 ^ 102) as H80 by done.
  assert (1000000000000 < 2 ^ 80) as H12 by done.
  split_and!; intros [Hlo Hhi];
    rewrite (formatDuration_integer x n Hx Hn) by lia.
  - destruct (Z.ltb_spec n 1000000); [|lia].
    pose proof (hundredths_accurate x n 1000 40 8796093022208000 (-43)
                  Hx Hn) as Hacc.
    unfold within_a_hundredth in Hacc.
    eexists. split; [|reflexivity].
    change (S754_finite false 8796093022208000 (-43)) with (of_Z 1000)
      in Hacc.
    assert (n < 2 ^ 40) by (assert (1000000 < 2 ^ 40) by done; lia).
    specialize (Hacc ltac:(lia) eq_refl ltac:(lia) eq_refl ltac:(lia)
                  ltac:(lia)). lia.
  - destruct (Z.ltb_spec n 1000000); [lia|].
    destruct (Z.ltb_spec n 1000000000); [|lia].
    pose proof (hundredths_accurate x n 1000000 40 8589934592000000 (-33)
                  Hx Hn) as Hacc.
    unfold within_a_hundredth in Hacc.
    eexists. split; [|reflexivity].
    change (S754_finite false 8589934592000000 (-33)) with (of_Z 1000000)
      in Hacc.
    assert (n < 2 ^ 40) by (assert (1000000000 < 2 ^ 40) by done; lia).
    specialize (Hacc ltac:(lia) eq_refl ltac:(lia) eq_refl ltac:(lia)
                  ltac:(lia)). lia.
  - destruct (Z.ltb_spec n 1000000); [lia|].
    destruct (Z.ltb_spec n 1000000000); [lia|].
    destruct (Z.ltb_spec n 1000000000000); [|lia].
    pose proof (hundredths_accurate x n 1000000000 40 8388608000000000 (-23)
                  Hx Hn) as Hacc.
    unfold within_a_hundredth in Hacc.
    eexists. split; [|reflexivity].
    change (S754_finite false 8388608000000000 (-23)) with (of_Z 1000000000)
      in Hacc.
    assert (n < 2 ^ 40) by (assert (1000000000000 < 2 ^ 40) by done; lia).
    specialize (Hacc ltac:(lia) eq_refl ltac:(lia) eq_refl ltac:(lia)
                  ltac:(lia)). lia.
  - destruct (Z.ltb_spec n 1000000); [lia|].
    destruct (Z.ltb_spec n 1000000000); [lia|].
    destruct (Z.ltb_spec n 1000000000000); [lia|].
    pose proof (hundredths_accurate x n 60000000000 80 7864320000000000 (-17)
                  Hx Hn) as Hacc.
    unfold within_a_hundredth in Hacc.
    eexists. split; [|reflexivity].
    change (S754_finite false 7864320000000000 (-17)) with (of_Z 60000000000)
      in Hacc.
    specialize (Hacc ltac:(lia) eq_refl ltac:(lia) eq_refl ltac:(lia)
                  ltac:(lia)). lia.
Qed.

(** X17: a negative duration is below every threshold, so it is
    printed unscaled in nanoseconds, a negative integer [-n] as a minus
    sign and the decimal digits of [n]; both zeros print as
    '0 nanoseconds', [-Infinity] in nanoseconds, and [Infinity] and NaN
    fall through to the minutes branch. *)
Theorem formatDuration_not_positive :
  (∀ m e, formatDuration (S754_finite true m e)
          = toString (S754_finite true m e) ++ " nanoseconds")
  ∧ (∀ x n, is_number x → Z_of_number x = Some (- n) → 0 < n < 2 ^ 53 →
            formatDuration x = "-" ++ decimal n ++ " nanoseconds")
  ∧ (∀ s, formatDuration (S754_zero s) = "0 nanoseconds")
  ∧ formatDuration (S754_infinity true) = "-Infinity nanoseconds"
  ∧ formatDuration (S754_infinity false) = "Infinity minutes"
  ∧ formatDuration S754_nan = "NaN minutes".
Proof.
  split_and!; try reflexivity.
  intros x n Hx Hn Hpos.
  assert (∃ m e, x = S754_finite true m e
                 ∧ Z_of_number (S754_finite false m e) = Some n)
    as (m & e & -> & Hn').
  { destruct x as [s|s| |s m e]; simpl in Hn; try done.
    - injection Hn as Hn. lia.
    - exists m, e. destruct s.
      + split; [done|]. simpl.
        destruct (0 <=? e); [|destruct (_ =? 0); [|done]];
          simpl in Hn; injection Hn as Hn; f_equal; lia.
      + exfalso.
        assert (0 <= Z.pos m * 2 ^ e) by (apply Z.mul_nonneg_nonneg; lia).
        assert (0 <= Z.pos m / 2 ^ (- e)).
        { apply Z_div_nonneg_nonneg; [lia|apply Z.pow_nonneg; lia]. }
        destruct (0 <=? e); [|destruct (_ =? 0); [|done]];
          simpl in Hn; injection Hn as Hn; lia. }
  assert (toString (S754_finite false m e) = decimal n) as Hpositive.
  { apply toString_integer_number; [exact Hx|done|lia]. }
  simpl in Hpositive. rewrite append_empty in Hpositive.
  change (formatDuration (S754_finite true m e))
    with (("-" ++ positive_toString m e) ++ " nanoseconds").
  by rewrite Hpositive, append_assoc.
Qed.

End DurationRange.

(** ** formatTimestamp on any number *)

Section TimestampAny.
Import Js Spec FrameworkEventsInspector.
Variable host : Host.
Hypothesis whole_seconds : ∀ t, localTZA host t mod 1000 = 0.

(** X18: for any timestamp, integral or not, with [n] its integer part
    (truncation towards zero): within the range of valid dates the
    result is the host's time of day for [n], a dot and the three
    digits of [n mod 1000]; outside that range, and for NaN and the
    infinities, which are the only numbers without an integer part,
    [formatTimestamp] throws a RangeError. *)
Theorem formatTimestamp_any (timestamp : number) :
  (∀ n, truncate timestamp = Some n → Z.abs n <= 8640000000000000 →
        formatTimestamp host timestamp
        = Normal (formatTime host n ++ "." ++ three_digits (n mod 1000)))
  ∧ (∀ n, truncate timestamp = Some n → 8640000000000000 < Z.abs n →
          formatTimestamp host timestamp = Throw "RangeError")
  ∧ (truncate timestamp = None →
     formatTimestamp host timestamp = Throw "RangeError")
  ∧ (truncate timestamp = None ↔
     timestamp = S754_nan ∨ ∃ s, timestamp = S754_infinity s).
Proof.
  unfold formatTimestamp, newDate. split_and!.
  - intros n -> Hn.
    destruct (Z.leb_spec (Z.abs n) 8640000000000000); [|lia].
    simpl DateTimeFormat_format. cbv iota beta zeta.
    rewrite (getMilliseconds_valid host whole_seconds).
    pose proof (Z.mod_pos_bound n 1000 ltac:(lia)) as Hmod.
    rewrite toString_integer by (assert (1000 < 2 ^ 53) by done; lia).
    by rewrite padStart_decimal.
  - intros n -> Hn.
    by destruct (Z.leb_spec (Z.abs n) 8640000000000000); [lia|].
  - by intros ->.
  - destruct timestamp; simpl; split; try done; eauto.
    + intros [?|[? ?]]; done.
    + intros [?|[? ?]]; done.
Qed.

End TimestampAny.

(** * Worked examples *)

Section Examples.
Import Js Spec FrameworkEventsInspector.

(** One hour is sixty minutes. *)
Lemma formatDuration_spec_hour :
  is_number (of_Z 3600000000000)
  ∧ Z_of_number (of_Z 3600000000000) = Some 3600000000000
  ∧ 0 <= 3600000000000
  ∧ (10 ^ 12 <= 3600000000000 →
     below_1e21 (div (of_Z 3600000000000) (of_Z 60000000000)) = true)
  ∧ formatDuration (of_Z 3600000000000) = "60.00 minutes".
Proof.
  assert (H1 : is_number (of_Z 3600000000000)) by reflexivity.
  assert (H2 : Z_of_number (of_Z 3600000000000) = Some 3600000000000)
    by reflexivity.
  assert (H3 : 0 <= 3600000000000) by lia.
  assert (H4 : 10 ^ 12 <= 3600000000000 →
               below_1e21 (div (of_Z 3600000000000) (of_Z 60000000000))
               = true) by (intros _; reflexivity).
  split_and!; try assumption.
  exact (eq_trans (proj1 (formatDuration_spec _ _ H1 H2 H3 H4)) eq_refl).
Defined.

(** A timestamp with 123 milliseconds. *)
Lemma formatTimestamp_spec_123 :
  (∀ t, localTZA utc_plus_one t mod 1000 = 0)
  ∧ Z_of_number (of_Z 1700000000123) = Some 1700000000123
  ∧ formatTimestamp utc_plus_one (of_Z 1700000000123)
    = Normal "12:34:56.123".
Proof.
  assert (H1 : ∀ t, localTZA utc_plus_one t mod 1000 = 0)
    by (intros t; reflexivity).
  assert (H2 : Z_of_number (of_Z 1700000000123) = Some 1700000000123)
    by reflexivity.
  split_and!; try assumption.
  apply (proj1 (formatTimestamp_spec utc_plus_one H1 _ _ H2)). simpl. lia.
Defined.

(** The second entry of a two-event timeline. *)
Lemma timeline_time_spec_second :
  Z.of_nat (length example_events) < 2 ^ 32
  ∧ timeline_time example_theme "." example_events !! 1%nat
    = Some {| moment := of_Z 1700000000456; display := "Mount";
              color := "purple"; key := "1" |}.
Proof.
  assert (H1 : Z.of_nat (length example_events) < 2 ^ 32) by reflexivity.
  split; [exact H1|].
  exact (proj2 (timeline_time_spec example_theme "." example_events H1)
           1%nat _ eq_refl).
Defined.

(** The name of a dotted event type. *)
Lemma eventTypeToName_spec_dotted :
  String.length "." = 1%nat
  ∧ occurs "." "Layout" = false
  ∧ eventTypeToName "." "Litho.Layout" = "Layout".
Proof.
  assert (H1 : String.length "." = 1%nat) by reflexivity.
  assert (H2 : occurs "." "Layout" = false) by reflexivity.
  split_and!; try assumption.
  exact (proj2 (proj1 (proj2 (eventTypeToName_spec "." "Litho.Layout" H1))
                  "Litho" "Layout" eq_refl H2)).
Defined.

(** The name of a dotted event type has no dot left. *)
Lemma eventTypeToName_idempotent_dotted :
  String.length "." = 1%nat
  ∧ occurs "." (eventTypeToName "." "Litho.Layout.compute") = false
  ∧ eventTypeToName "." (eventTypeToName "." "Litho.Layout.compute")
    = eventTypeToName "." "Litho.Layout.compute".
Proof.
  split; [reflexivity|].
  apply (eventTypeToName_idempotent "." "Litho.Layout.compute"). reflexivity.
Defined.

(** A click on the second entry of a two-event timeline. *)
Lemma onClick_timeline_entry_second :
  Z.of_nat (length example_events) < 2 ^ 32
  ∧ example_events !! 1%nat
    = Some {| ClientTypes.type := "Litho.Mount";
              ClientTypes.thread := Some "background";
              ClientTypes.timestamp := of_Z 1700000000456 |}
  ∧ timeline_time example_theme "." example_events !! 1%nat
    = Some {| moment := of_Z 1700000000456; display := "Mount";
              color := "purple"; key := "1" |}
  ∧ parseInt "1" = of_Z 1
  ∧ onClick {| ClientTypes.id := of_Z 7; ClientTypes.tags := ["TreeRoot"] |}
      true ∅ example_events "1"
    = Normal (Some ("Event details",
        {| props_frameworkEventMetadata := None;
           props_event :=
             {| ClientTypes.type := "Litho.Mount";
                ClientTypes.thread := Some "background";
                ClientTypes.timestamp := of_Z 1700000000456 |};
           props_node := {| ClientTypes.id := of_Z 7;
                            ClientTypes.tags := ["TreeRoot"] |} |})).
Proof.
  assert (H1 : Z.of_nat (length example_events) < 2 ^ 32) by reflexivity.
  split; [exact H1|]. split; [reflexivity|]. split; [reflexivity|].
  exact (onClick_timeline_entry example_theme "."
           {| ClientTypes.id := of_Z 7; ClientTypes.tags := ["TreeRoot"] |}
           ∅ example_events 1%nat
           {| ClientTypes.type := "Litho.Mount";
              ClientTypes.thread := Some "background";
              ClientTypes.timestamp := of_Z 1700000000456 |}
           {| moment := of_Z 1700000000456; display := "Mount";
              color := "purple"; key := "1" |}
           H1 eq_refl eq_refl).
Defined.

(** The keys of a two-event timeline. *)
Lemma timeline_keys_distinct_two :
  Z.of_nat (length example_events) < 2 ^ 32
  ∧ NoDup (key <$> timeline_time example_theme "." example_events).
Proof.
  assert (H1 : Z.of_nat (length example_events) < 2 ^ 32) by reflexivity.
  split; [exact H1|].
  exact (timeline_keys_distinct example_theme "." example_events H1).
Defined.

(** A microsecond and a half. *)
Lemma formatDuration_scaled_range_1500 :
  is_number (of_Z 1500)
  ∧ Z_of_number (of_Z 1500) = Some 1500
  ∧ ∃ k, 100 <= k <= 100000
         ∧ formatDuration (of_Z 1500) = two_decimals k ++ " microseconds".
Proof.
  assert (H1 : is_number (of_Z 1500)) by reflexivity.
  assert (H2 : Z_of_number (of_Z 1500) = Some 1500) by reflexivity.
  split_and!; try assumption.
  apply (proj1 (formatDuration_scaled_range _ _ H1 H2)). simpl. lia.
Defined.

(** One millisecond and a half is in the second millisecond. *)
Lemma formatTimestamp_any_fraction :
  (∀ t, localTZA utc_plus_one t mod 1000 = 0)
  ∧ truncate (div (of_Z 3) (of_Z 2)) = Some 1
  ∧ formatTimestamp utc_plus_one (div (of_Z 3) (of_Z 2))
    = Normal "12:34:56.001".
Proof.
  assert (H1 : ∀ t, localTZA utc_plus_one t mod 1000 = 0)
    by (intros t; reflexivity).
  assert (H2 : truncate (div (of_Z 3) (of_Z 2)) = Some 1) by reflexivity.
  split_and!; try assumption.
  apply (proj1 (formatTimestamp_any utc_plus_one H1 _) 1 H2). simpl. lia.
Defined.

End Examples.
